(** * The decorator layer of mocha-typescript (src/index.ts)

    A shallow embedding of the marking operations ([test], [slow], [timeout],
    [only], [skip]) and of the suite translation ([suite]) over a small model
    of the JavaScript object store, followed by the properties of the
    specification that concern them.  The first part holds the definitions:
    the store, the effects, the source, two sample suites and the vocabulary
    of the statements; the second part holds the lemmas and theorems.

    Scope of the JavaScript model.
    - Properties are data properties, writable, on extensible objects; there
      are no accessors, proxies or symbols-as-keys (the source builds its
      keys with [nodeSymbol], which yields strings).  The own properties of
      an object are listed in the order a [for-in] loop visits them.
    - The module is strict code (it is an ES module), so writing a property on
      a primitive raises a TypeError.
    - [Function.prototype.call] and [Function.prototype.apply] are the
      built-ins.  The guard of the loop calls [prototype.hasOwnProperty(key)];
      the embedding evaluates the built-in [Object.prototype.hasOwnProperty],
      which is what that name resolves to unless the suite or one of its
      ancestors defines a member of that name.  The properties that depend on
      the answer of the guard carry this as a hypothesis, [builtin_guard].
    - Numbers are modelled by integers: the adapter never does arithmetic on
      them, it tests their type and their truthiness, and compares parameter
      counts with 0 and 1.
    - User code (hooks, case bodies, constructors, the setters of the runner's
      configuration handle) and the coercions that may run user code are
      supplied by an [engine]; every theorem holds for every engine.  User
      code may change the store; it cannot reach the [instance] variable of
      the describe callback, which only the adapter's closures read and write.
    - The host runner is outside the repository.  Its registration functions
      are modelled by the events they are called with, and its scheduling of
      one case by [run_case]: per-case setup, then the case if the setup
      returned, then the per-case teardown in every case, with a completion
      callback passed to the closures that declare a parameter.  The closures
      are arrow functions, so the receiver the runner binds when it calls one
      is not seen by it ([runner_call_on]).
      One suite is translated at a time, so one [instance] variable is live. *)

From Stdlib Require Import ZArith String List Bool Lia.
From stdpp Require Import base option list gmap strings pretty.

Local Open Scope Z_scope.
Local Open Scope string_scope.
Local Open Scope list_scope.

(** ** Values and objects *)

Definition loc := positive.

Inductive value :=
| VUndefined
| VNull
| VBool (b : bool)
| VNum (n : Z)
| VStr (s : string)
| VObj (l : loc).

#[global] Instance value_eq_dec : EqDecision value.
Proof. solve_decision. Defined.

Record property := { p_value : value; p_enumerable : bool }.

(** A callable object has a declared parameter count and a name; both are
    exposed as the non-enumerable, non-writable own properties [length] and
    [name]. *)
Record func := { f_length : nat; f_name : string }.

Record object := {
  o_proto : option loc;
  o_props : list (string * property);   (* own properties, in enumeration order *)
  o_func : option func
}.

Abbreviation heap := (gmap loc object).

Definition ObjectPrototype : loc := 1%positive.
Definition FunctionPrototype : loc := 2%positive.
Definition StringPrototype : loc := 3%positive.
Definition NumberPrototype : loc := 4%positive.
Definition BooleanPrototype : loc := 5%positive.
Definition ObjectPrototype_hasOwnProperty : loc := 6%positive.

Definition empty_object : object :=
  {| o_proto := None; o_props := []; o_func := None |}.

Definition hidden (v : value) : property :=
  {| p_value := v; p_enumerable := false |}.

Definition visible (v : value) : property :=
  {| p_value := v; p_enumerable := true |}.

Fixpoint assoc (k : string) (ps : list (string * property)) : option property :=
  match ps with
  | [] => None
  | (k', p) :: ps' => if String.eqb k k' then Some p else assoc k ps'
  end.

Definition own_property (o : object) (k : string) : option property :=
  match o_func o with
  | Some f =>
      if String.eqb k "length" then Some (hidden (VNum (Z.of_nat (f_length f))))
      else if String.eqb k "name" then Some (hidden (VStr (f_name f)))
      else assoc k (o_props o)
  | None => assoc k (o_props o)
  end.

Definition own_keys (o : object) : list (string * bool) :=
  match o_func o with
  | Some _ => [("length", false); ("name", false)]
  | None => []
  end ++ map (fun kp => (fst kp, p_enumerable (snd kp))) (o_props o).

(** The wrapper object a primitive is read through ([ToObject]). *)
Fixpoint string_index_props (i : nat) (s : string) : list (string * property) :=
  match s with
  | EmptyString => []
  | String c s' =>
      (pretty i, visible (VStr (String c EmptyString))) :: string_index_props (S i) s'
  end.

Definition to_object (h : heap) (v : value) : option object :=
  match v with
  | VUndefined | VNull => None
  | VBool _ =>
      Some {| o_proto := Some BooleanPrototype; o_props := []; o_func := None |}
  | VNum _ =>
      Some {| o_proto := Some NumberPrototype; o_props := []; o_func := None |}
  | VStr s =>
      Some {| o_proto := Some StringPrototype;
              o_props := string_index_props 0 s
                         ++ [("length", hidden (VNum (Z.of_nat (String.length s))))];
              o_func := None |}
  | VObj l => Some (default empty_object (h !! l))
  end.

(** Property lookup along the prototype chain.  Chains are acyclic, so the
    number of objects of the store bounds their length. *)
Fixpoint lookup_chain (fuel : nat) (h : heap) (o : object) (k : string)
  : option property :=
  match own_property o k with
  | Some p => Some p
  | None =>
      match fuel, o_proto o with
      | S fuel', Some p =>
          match h !! p with
          | Some o' => lookup_chain fuel' h o' k
          | None => None
          end
      | _, _ => None
      end
  end.

(** [v[k]]; [None] stands for the TypeError raised on [undefined] and [null]. *)
Definition get (h : heap) (v : value) (k : string) : option value :=
  match to_object h v with
  | None => None
  | Some o =>
      Some (match lookup_chain (size h) h o k with
            | Some p => p_value p
            | None => VUndefined
            end)
  end.

Fixpoint in_proto_chain (fuel : nat) (h : heap) (o : object) (target : loc) : bool :=
  match fuel, o_proto o with
  | S fuel', Some p =>
      if decide (p = target) then true
      else match h !! p with
           | Some o' => in_proto_chain fuel' h o' target
           | None => false
           end
  | _, _ => false
  end.

(** [v instanceof Function] *)
Definition instanceof_Function (h : heap) (v : value) : bool :=
  match v with
  | VObj l =>
      match h !! l with
      | Some o => in_proto_chain (size h) h o FunctionPrototype
      | None => false
      end
  | _ => false
  end.

(** [v.hasOwnProperty(k)] *)
Definition hasOwnProperty (h : heap) (v : value) (k : string) : bool :=
  match to_object h v with
  | Some o => bool_decide (is_Some (own_property o k))
  | None => false
  end.

(** The keys a [for (k in v)] loop visits: the enumerable own keys, then those
    of the prototype chain that no nearer object has under the same name. *)
Fixpoint for_in_chain (fuel : nat) (h : heap) (o : object) (seen : list string)
  : list string :=
  let own := own_keys o in
  map fst (filter (fun kp => snd kp = true ∧ fst kp ∉ seen) own)
  ++ match fuel, o_proto o with
     | S fuel', Some p =>
         match h !! p with
         | Some o' => for_in_chain fuel' h o' (seen ++ map fst own)
         | None => []
         end
     | _, _ => []
     end.

Definition for_in_keys (h : heap) (v : value) : list string :=
  match to_object h v with
  | Some o => for_in_chain (size h) h o []
  | None => []
  end.

Definition callable (h : heap) (v : value) : option loc :=
  match v with
  | VObj l =>
      match h !! l with
      | Some o => match o_func o with Some _ => Some l | None => None end
      | None => None
      end
  | _ => None
  end.

Definition typeof (h : heap) (v : value) : string :=
  match v with
  | VUndefined => "undefined"
  | VNull => "object"
  | VBool _ => "boolean"
  | VNum _ => "number"
  | VStr _ => "string"
  | VObj _ => match callable h v with Some _ => "function" | None => "object" end
  end.

Definition truthy (v : value) : bool :=
  match v with
  | VUndefined | VNull => false
  | VBool b => b
  | VNum n => negb (n =? 0)%Z
  | VStr s => negb (String.eqb s "")
  | VObj _ => true
  end.

(** [a && b] and [a || b] on values whose second operand has no effect. *)
Definition js_and (a b : value) : value := if truthy a then b else a.
Definition js_or (a b : value) : value := if truthy a then a else b.

(** ** Effects: exceptions, the store, the suite's instance variable *)

Inductive exn := TypeError | Thrown (v : value).

Inductive outcome (A : Type) := Normal (a : A) | Throw (e : exn).
Arguments Normal {A} a.
Arguments Throw {A} e.

(** What the embedding does not define: user functions, constructors, the
    coercions of strings and objects to numbers, and the receiver the runner
    binds when it calls the callback given to [describe]. *)
Record engine := {
  invoke : heap -> loc -> value -> list value -> outcome value * heap;
  construct : heap -> loc -> outcome loc * heap;
  to_primitive : heap -> loc -> value;
  string_to_number : string -> option Z;
  suite_context : value
}.

(** The closures the adapter hands to the runner, with what they capture. *)
Inductive closure :=
| StaticBeforeDone (target : value)       (* (done) => target.before(done) *)
| StaticBeforeSync (target : value)       (* () => target.before() *)
| StaticAfterDone (target : value)        (* (done) => target.after(done) *)
| StaticAfterSync (target : value)        (* () => target.after() *)
| BeforeEachDefault (target : value)      (* () => { instance = new target() } *)
| BeforeEachDone (target prototype : value)
| BeforeEachSync (target prototype : value)
| AfterEachDefault                        (* () => { instance = undefined } *)
| AfterEachDone (prototype : value)
| AfterEachSync (prototype : value)
| CaseSync (this method : value)          (* () => { applyTimes(this); ... } *)
| CaseDone (this method : value).         (* (done) => { applyTimes(this); ... } *)

(** The declared parameter count of each closure, which is what the runner
    inspects to choose between the two calling conventions. *)
Definition closure_length (c : closure) : nat :=
  match c with
  | StaticBeforeDone _ | StaticAfterDone _ | BeforeEachDone _ _
  | AfterEachDone _ | CaseDone _ _ => 1
  | _ => 0
  end.

Inductive entry := itFunction | skipFunction | onlyFunction.

(** Where in the source a user function is called from. *)
Inductive site :=
| BeforeAllHook | AfterAllHook | BeforeEachHook | AfterEachHook
| CaseBody | Configure.

Inductive event :=
| Describe (name : value)
| BeforeAll (c : closure)
| AfterAll (c : closure)
| BeforeEach (c : closure)
| AfterEach (c : closure)
| Case (e : entry) (name : value) (c : closure)
| New (target : value)
| Invoke (at_site : site) (f : loc) (this : value) (args : list value)
| SetInstance (v : value).

Record state := {
  st_heap : heap;
  st_instance : value;      (* the [instance] variable of the describe callback *)
  st_trace : list event     (* oldest first *)
}.

Definition M (A : Type) : Type := state -> outcome A * state.

#[global] Instance M_ret : MRet M := fun A a s => (Normal a, s).

#[global] Instance M_bind : MBind M := fun A B f m s =>
  match m s with
  | (Normal a, s') => f a s'
  | (Throw e, s') => (Throw e, s')
  end.

Definition throw {A} (e : exn) : M A := fun s => (Throw e, s).

Definition emit (e : event) : M unit := fun s =>
  (Normal tt, {| st_heap := st_heap s; st_instance := st_instance s;
                 st_trace := st_trace s ++ [e] |}).

Definition read_heap : M heap := fun s => (Normal (st_heap s), s).

Definition read_instance : M value := fun s => (Normal (st_instance s), s).

Definition write_instance (v : value) : M unit := fun s =>
  (Normal tt, {| st_heap := st_heap s; st_instance := v;
                 st_trace := st_trace s ++ [SetInstance v] |}).

(** [v[k]] *)
Definition get_prop (v : value) (k : string) : M value := fun s =>
  match get (st_heap s) v k with
  | Some x => (Normal x, s)
  | None => (Throw TypeError, s)
  end.

(** A write to an own property keeps its place and its enumerability; a
    write to a new name appends an enumerable property. *)
Definition overwrite (k : string) (x : value) (kp : string * property)
  : string * property :=
  if String.eqb k (fst kp)
  then (fst kp, {| p_value := x; p_enumerable := p_enumerable (snd kp) |})
  else kp.

Definition set_own (o : object) (k : string) (x : value) : object :=
  {| o_proto := o_proto o;
     o_props := match assoc k (o_props o) with
                | Some _ => map (overwrite k x) (o_props o)
                | None => o_props o ++ [(k, visible x)]
                end;
     o_func := o_func o |}.

Definition read_only (o : object) (k : string) : bool :=
  match o_func o with
  | Some _ => String.eqb k "length" || String.eqb k "name"
  | None => false
  end.

(** [v[k] = x] *)
Definition set_prop (v : value) (k : string) (x : value) : M unit := fun s =>
  match v with
  | VObj l =>
      let o := default empty_object (st_heap s !! l) in
      if read_only o k then (Throw TypeError, s)
      else (Normal tt, {| st_heap := <[l := set_own o k x]> (st_heap s);
                          st_instance := st_instance s;
                          st_trace := st_trace s |})
  | _ => (Throw TypeError, s)
  end.

Section Adapter.

Variable E : engine.

(** [f.call(this, ...args)], and [f(...args)] with its receiver made explicit. *)
Definition call (at_site : site) (f this : value) (args : list value) : M value :=
  fun s =>
    match callable (st_heap s) f with
    | Some l =>
        let '(out, h') := invoke E (st_heap s) l this args in
        (out, {| st_heap := h'; st_instance := st_instance s;
                 st_trace := st_trace s ++ [Invoke at_site l this args] |})
    | None => (Throw TypeError, s)
    end.

(** [new target()] *)
Definition js_new (target : value) : M value := fun s =>
  match callable (st_heap s) target with
  | Some l =>
      let '(out, h') := construct E (st_heap s) l in
      (match out with Normal o => Normal (VObj o) | Throw e => Throw e end,
       {| st_heap := h'; st_instance := st_instance s;
          st_trace := st_trace s ++ [New target] |})
  | None => (Throw TypeError, s)
  end.

Definition primitive_of (h : heap) (v : value) : value :=
  match v with VObj l => to_primitive E h l | _ => v end.

Definition to_number (h : heap) (v : value) : option Z :=
  match primitive_of h v with
  | VUndefined => None
  | VNull => Some 0%Z
  | VBool b => Some (if b then 1 else 0)%Z
  | VNum n => Some n
  | VStr s => string_to_number E s
  | VObj _ => None
  end.

(** [v > n] and [v == n] for a number [n] *)
Definition js_gt (h : heap) (v : value) (n : Z) : bool :=
  match to_number h v with Some m => (n <? m)%Z | None => false end.

Definition js_eq (h : heap) (v : value) (n : Z) : bool :=
  match primitive_of h v with
  | VUndefined | VNull | VObj _ => false
  | _ => match to_number h v with Some m => (m =? n)%Z | None => false end
  end.

(** ** The marking operations (src/index.ts, lines 30-38 and 175-224) *)

Definition nodeSymbol (key : string) : string := "__mts_" +:+ key.

Definition testNameSymbol : string := nodeSymbol "test".
Definition instanceSymbol : string := nodeSymbol "instance".
Definition slowSymbol : string := nodeSymbol "slow".
Definition timeoutSymbol : string := nodeSymbol "timout".
Definition onlySymbol : string := nodeSymbol "only".
Definition skipSymbol : string := nodeSymbol "skip".

(** The [propertyKey] argument of a member decorator is a string, or is
    omitted ([None]); as a value it is then [undefined], and as a key it is
    the string "undefined". *)
Definition key_value (propertyKey : option string) : value :=
  match propertyKey with Some k => VStr k | None => VUndefined end.

Definition key_name (propertyKey : option string) : string :=
  match propertyKey with Some k => k | None => "undefined" end.

(** What [suite] and [test] return: the inner function [result] closed over
    [decoratorName], or nothing after having applied it. *)
Inductive returned := Decorator (decoratorName : value) | Applied.

(** The inner function [result] of [test]. *)
Definition test_result (decoratorName target : value) (propertyKey : option string)
  : M unit :=
  member ← get_prop target (key_name propertyKey);
  set_prop member testNameSymbol (js_or decoratorName (key_value propertyKey)).

Definition test (target : value) (propertyKey : option string) : M returned :=
  h ← read_heap;
  let decoratorName := js_and (VBool (String.eqb (typeof h target) "string")) target in
  if truthy decoratorName then mret (Decorator decoratorName)
  else test_result decoratorName target propertyKey;; mret Applied.

(** [slow(time)] and [timeout(time)] return a decorator; it is given here
    with its two arguments after [time]. *)
Definition slow (time target : value) (propertyKey : option string) : M unit :=
  member ← get_prop target (key_name propertyKey);
  set_prop member slowSymbol time.

Definition timeout (time target : value) (propertyKey : option string) : M unit :=
  member ← get_prop target (key_name propertyKey);
  set_prop member timeoutSymbol time.

Definition only (target : value) (propertyKey : option string) : M unit :=
  member ← get_prop target (key_name propertyKey);
  set_prop member onlySymbol (VBool true).

Definition skip (target : value) (propertyKey : option string) : M unit :=
  member ← get_prop target (key_name propertyKey);
  set_prop member skipSymbol (VBool true).

(** ** The suite translation (src/index.ts, lines 60-173) *)

(** The runner's registration functions record what they are given. *)
Definition describeFunction (name : value) (cb : value -> M unit) : M unit :=
  emit (Describe name);; cb (suite_context E).

Definition beforeAll (c : closure) : M unit := emit (BeforeAll c).
Definition afterAll (c : closure) : M unit := emit (AfterAll c).
Definition beforeEach (c : closure) : M unit := emit (BeforeEach c).
Definition afterEach (c : closure) : M unit := emit (AfterEach c).
Definition register (e : entry) (name : value) (c : closure) : M unit :=
  emit (Case e name c).

(** [let instance;] *)
Definition declare_instance : M unit := fun s =>
  (Normal tt, {| st_heap := st_heap s; st_instance := VUndefined;
                 st_trace := st_trace s |}).

(** Lines 66-76. *)
Definition static_before (target : value) : M unit :=
  b ← get_prop target "before";
  if truthy b then
    b' ← get_prop target "before";
    len ← get_prop b' "length";
    h ← read_heap;
    if js_gt h len 0 then beforeAll (StaticBeforeDone target)
    else beforeAll (StaticBeforeSync target)
  else mret tt.

(** Lines 77-87. *)
Definition static_after (target : value) : M unit :=
  a ← get_prop target "after";
  if truthy a then
    a' ← get_prop target "after";
    len ← get_prop a' "length";
    h ← read_heap;
    if js_gt h len 0 then afterAll (StaticAfterDone target)
    else afterAll (StaticAfterSync target)
  else mret tt.

(** Lines 89-104. *)
Definition beforeEachFunction (target prototype : value) : M closure :=
  b ← get_prop prototype "before";
  if truthy b then
    b' ← get_prop prototype "before";
    len ← get_prop b' "length";
    h ← read_heap;
    if js_gt h len 0 then mret (BeforeEachDone target prototype)
    else mret (BeforeEachSync target prototype)
  else mret (BeforeEachDefault target).

(** Lines 107-124. *)
Definition afterEachFunction (prototype : value) : M closure :=
  a ← get_prop prototype "after";
  if truthy a then
    a' ← get_prop prototype "after";
    len ← get_prop a' "length";
    h ← read_heap;
    if js_gt h len 0 then mret (AfterEachDone prototype)
    else mret (AfterEachSync prototype)
  else mret AfterEachDefault.

(** Lines 135-145. *)
Definition applyTimes (method target : value) : M value :=
  timeoutValue ← get_prop method timeoutSymbol;
  slowValue ← get_prop method slowSymbol;
  h ← read_heap;
  (if String.eqb (typeof h timeoutValue) "number"
   then f ← get_prop target "timeout"; call Configure f target [timeoutValue];; mret tt
   else mret tt);;
  h' ← read_heap;
  (if String.eqb (typeof h' slowValue) "number"
   then f ← get_prop target "slow"; call Configure f target [slowValue];; mret tt
   else mret tt);;
  mret target.

(** Lines 150-152: [(shouldSkip && skipFunction) || (shouldOnly && onlyFunction)
    || itFunction].  The three entry points are functions, hence truthy. *)
Definition testFunc (shouldSkip shouldOnly : value) : entry :=
  if truthy shouldSkip then skipFunction
  else if truthy shouldOnly then onlyFunction
  else itFunction.

(** Lines 128-168, the body of the loop over the keys of the prototype. *)
Definition loop_body (prototype this : value) (key : string) : M unit :=
  h ← read_heap;
  if negb (hasOwnProperty h prototype key) || negb (instanceof_Function h prototype)
  then mret tt
  else
    method ← get_prop prototype key;
    testName ← get_prop method testNameSymbol;
    shouldSkip ← get_prop method skipSymbol;
    shouldOnly ← get_prop method onlySymbol;
    if truthy testName then
      len ← get_prop method "length";
      if js_eq h len 0
      then register (testFunc shouldSkip shouldOnly) testName (CaseSync this method)
      else
        len' ← get_prop method "length";
        if js_eq h len' 1
        then register (testFunc shouldSkip shouldOnly) testName (CaseDone this method)
        else mret tt
    else mret tt.

Fixpoint for_each {A} (xs : list A) (body : A -> M unit) : M unit :=
  match xs with
  | [] => mret tt
  | x :: xs' => body x;; for_each xs' body
  end.

(** [for (let key in v) body] for a body that leaves the store as it is. *)
Definition for_in (v : value) (body : string -> M unit) : M unit := fun s =>
  for_each (for_in_keys (st_heap s) v) body s.

(** Lines 64-170, the callback given to [describe]; [this] is its receiver. *)
Definition suite_callback (target this : value) : M unit :=
  declare_instance;;
  static_before target;;
  static_after target;;
  prototype ← get_prop target "prototype";
  b ← beforeEachFunction target prototype;
  beforeEach b;;
  a ← afterEachFunction prototype;
  afterEach a;;
  for_in prototype (loop_body prototype this).

(** The inner function [result] of [suite]. *)
Definition suite_result (decoratorName target : value) : M unit :=
  targetName ← (if truthy decoratorName then mret decoratorName
                else get_prop target "name");
  describeFunction targetName (suite_callback target).

Definition suite (target : value) : M returned :=
  h ← read_heap;
  let decoratorName := js_and (VBool (String.eqb (typeof h target) "string")) target in
  if truthy decoratorName then mret (Decorator decoratorName)
  else suite_result decoratorName target;; mret Applied.

(** ** What the closures do when the runner calls them *)

Definition arg0 (args : list value) : value := nth 0 args VUndefined.

Definition call_closure (c : closure) (args : list value) : M value :=
  match c with
  | StaticBeforeDone target =>
      f ← get_prop target "before"; call BeforeAllHook f target [arg0 args]
  | StaticBeforeSync target =>
      f ← get_prop target "before"; call BeforeAllHook f target []
  | StaticAfterDone target =>
      f ← get_prop target "after"; call AfterAllHook f target [arg0 args]
  | StaticAfterSync target =>
      f ← get_prop target "after"; call AfterAllHook f target []
  | BeforeEachDefault target =>
      i ← js_new target; write_instance i;; mret VUndefined
  | BeforeEachDone target prototype =>
      i ← js_new target; write_instance i;;
      f ← get_prop prototype "before";
      inst ← read_instance;
      call BeforeEachHook f inst [arg0 args]
  | BeforeEachSync target prototype =>
      i ← js_new target; write_instance i;;
      f ← get_prop prototype "before";
      inst ← read_instance;
      call BeforeEachHook f inst []
  | AfterEachDefault =>
      write_instance VUndefined;; mret VUndefined
  | AfterEachDone prototype =>
      instanceReference ← read_instance;
      write_instance VUndefined;;
      f ← get_prop prototype "after";
      call AfterEachHook f instanceReference [arg0 args]
  | AfterEachSync prototype =>
      instanceReference ← read_instance;
      write_instance VUndefined;;
      f ← get_prop prototype "after";
      call AfterEachHook f instanceReference []
  | CaseSync this method =>
      applyTimes method this;;
      inst ← read_instance;
      call CaseBody method inst []
  | CaseDone this method =>
      applyTimes method this;;
      inst ← read_instance;
      call CaseBody method inst [arg0 args]
  end.

(** The host runner owns the scheduling.  It passes a completion callback to
    the closures that declare a parameter, and runs a case as: per-case setup,
    then the case (only when the setup returned normally), then the per-case
    teardown, whatever the setup and the case did.  The first failure is the
    one reported. *)
Definition runner_call (c : closure) (done : value) : M value :=
  call_closure c (if (0 <? closure_length c)%nat then [done] else []).

Definition followed_by (body teardown : M value) : M value := fun s =>
  let '(out, s') := body s in
  match teardown s' with
  | (Normal _, s'') => (out, s'')
  | (Throw e, s'') => (Throw e, s'')
  end.

Definition run_case (setup body teardown : closure) (done : value) : M value :=
  fun s =>
    match runner_call setup done s with
    | (Normal _, s1) =>
        followed_by (runner_call body done) (runner_call teardown done) s1
    | (Throw e, s1) => (Throw e, snd (runner_call teardown done s1))
    end.

(** The runner binds a receiver of its own when it calls a closure.  Every
    closure of the adapter is an arrow function (lines 68-166): its [this] is
    the one of the describe callback, and the receiver of the call is lost. *)
Definition runner_call_on (receiver : value) (c : closure) (done : value) : M value :=
  runner_call c done.

End Adapter.

(** ** Sample stores

    A realm with [Object.prototype], its [hasOwnProperty] and
    [Function.prototype], an engine whose user functions do nothing, and the class of the specification's example:
    [Calculator], with one method [addsNumbers] of no parameter. *)

Definition plain (proto : loc) (ps : list (string * property)) : object :=
  {| o_proto := Some proto; o_props := ps; o_func := None |}.

Definition function (n : nat) (name : string) (ps : list (string * property))
  : object :=
  {| o_proto := Some FunctionPrototype; o_props := ps;
     o_func := Some {| f_length := n; f_name := name |} |}.

Definition realm : heap :=
  <[ObjectPrototype :=
      {| o_proto := None;
         o_props := [("hasOwnProperty", hidden (VObj ObjectPrototype_hasOwnProperty))];
         o_func := None |}]>
  (<[FunctionPrototype := {| o_proto := Some ObjectPrototype; o_props := [];
                             o_func := Some {| f_length := 0; f_name := "" |} |}]>
  (<[ObjectPrototype_hasOwnProperty := function 1 "hasOwnProperty" []]> ∅)).

Definition fresh_instance : loc := 50%positive.
Definition handle : loc := 60%positive.

Definition quiet : engine := {|
  invoke := fun h _ _ _ => (Normal VUndefined, h);
  construct := fun h _ =>
    (Normal fresh_instance, <[fresh_instance := plain ObjectPrototype []]> h);
  to_primitive := fun _ _ => VStr "[object Object]";
  string_to_number := fun _ => None;
  suite_context := VObj handle
|}.

Definition start (h : heap) : state :=
  {| st_heap := h; st_instance := VUndefined; st_trace := [] |}.

Definition Calculator : loc := 10%positive.
Definition Calculator_prototype : loc := 11%positive.
Definition addsNumbers : loc := 12%positive.

Definition Calculator_class : heap :=
  <[Calculator := function 0 "Calculator"
                    [("prototype", hidden (VObj Calculator_prototype))]]>
  (<[Calculator_prototype := plain ObjectPrototype
                    [("constructor", hidden (VObj Calculator));
                     ("addsNumbers", visible (VObj addsNumbers))]]>
  (<[addsNumbers := function 0 "" []]> realm)).

(** [@test("adds numbers") addsNumbers() { ... }] *)
Definition Calculator_store : heap :=
  st_heap (snd (test_result (VStr "adds numbers") (VObj Calculator_prototype)
                            (Some "addsNumbers") (start Calculator_class))).

(** [@test("adds numbers") @skip @only addsNumbers() { ... }] *)
Definition Calculator_flagged : heap :=
  st_heap (snd ((skip (VObj Calculator_prototype) (Some "addsNumbers");;
                 only (VObj Calculator_prototype) (Some "addsNumbers"))
                  (start Calculator_store))).

(** ** A suite with hooks, flags and timing tags

    [Probe]'s prototype inherits from [Function.prototype]; it has a static
    before hook with a parameter, a static after hook without, an instance
    before hook without and an instance after hook with one, and five
    members. *)

Definition Probe : loc := 20%positive.
Definition Probe_prototype : loc := 21%positive.
Definition works : loc := 22%positive.
Definition helper : loc := 23%positive.
Definition wide : loc := 24%positive.
Definition skipped : loc := 25%positive.
Definition solo : loc := 26%positive.
Definition static_before_hook : loc := 30%positive.
Definition static_after_hook : loc := 31%positive.
Definition before_hook : loc := 32%positive.
Definition after_hook : loc := 33%positive.
Definition timeout_setter : loc := 61%positive.
Definition slow_setter : loc := 62%positive.

Definition Probe_class : heap :=
  <[Probe := function 0 "Probe"
               [("prototype", hidden (VObj Probe_prototype));
                ("before", visible (VObj static_before_hook));
                ("after", visible (VObj static_after_hook))]]>
  (<[Probe_prototype := plain FunctionPrototype
               [("constructor", hidden (VObj Probe));
                ("before", visible (VObj before_hook));
                ("after", visible (VObj after_hook));
                ("works", visible (VObj works));
                ("helper", visible (VObj helper));
                ("wide", visible (VObj wide));
                ("skipped", visible (VObj skipped));
                ("solo", visible (VObj solo))]]>
  (<[works := function 0 "" []]>
  (<[helper := function 0 "" []]>
  (<[wide := function 2 "" []]>
  (<[skipped := function 0 "" []]>
  (<[solo := function 1 "" []]>
  (<[static_before_hook := function 1 "" []]>
  (<[static_after_hook := function 0 "" []]>
  (<[before_hook := function 0 "" []]>
  (<[after_hook := function 1 "" []]>
  (<[handle := plain ObjectPrototype
               [("timeout", visible (VObj timeout_setter));
                ("slow", visible (VObj slow_setter))]]>
  (<[timeout_setter := function 1 "timeout" []]>
  (<[slow_setter := function 1 "slow" []]> realm))))))))))))).

(** [@test("works") @slow(100) @timeout(2000) works() {}],
    [@skip @slow(5) helper() {}], [@test("wide") wide(a, b) {}],
    [@test("skipped") @skip @only skipped() {}],
    [@test @only @timeout("soon") solo(done) {}]. *)
Definition decorate_Probe : M unit :=
  let P := VObj Probe_prototype in
  test_result (VStr "works") P (Some "works");;
  slow (VNum 100) P (Some "works");;
  timeout (VNum 2000) P (Some "works");;
  skip P (Some "helper");;
  slow (VNum 5) P (Some "helper");;
  test_result (VStr "wide") P (Some "wide");;
  test_result (VStr "skipped") P (Some "skipped");;
  skip P (Some "skipped");;
  only P (Some "skipped");;
  test P (Some "solo");;
  only P (Some "solo");;
  timeout (VStr "soon") P (Some "solo").

Definition Probe_store : heap := st_heap (snd (decorate_Probe (start Probe_class))).

Definition Probe_cases : list event :=
  [Describe (VStr "Probe");
   BeforeAll (StaticBeforeDone (VObj Probe));
   AfterAll (StaticAfterSync (VObj Probe));
   BeforeEach (BeforeEachSync (VObj Probe) (VObj Probe_prototype));
   AfterEach (AfterEachDone (VObj Probe_prototype));
   Case itFunction (VStr "works") (CaseSync (VObj handle) (VObj works));
   Case skipFunction (VStr "skipped") (CaseSync (VObj handle) (VObj skipped));
   Case onlyFunction (VStr "solo") (CaseDone (VObj handle) (VObj solo))].

Definition Probe_translated : state :=
  {| st_heap := Probe_store; st_instance := VUndefined; st_trace := Probe_cases |}.

Definition Probe_timeline (body : loc) (configuration : list event)
           (args : list value) : list event :=
  [New (VObj Probe); SetInstance (VObj fresh_instance);
   Invoke BeforeEachHook before_hook (VObj fresh_instance) []]
  ++ configuration
  ++ [Invoke CaseBody body (VObj fresh_instance) args;
      SetInstance VUndefined;
      Invoke AfterEachHook after_hook (VObj fresh_instance) [VStr "done"]].

Definition Probe_case (body : closure) : outcome value * state :=
  run_case quiet (BeforeEachSync (VObj Probe) (VObj Probe_prototype)) body
           (AfterEachDone (VObj Probe_prototype)) (VStr "done") (start Probe_store).

(** An engine whose constructors throw. *)
Definition unconstructible : engine := {|
  invoke := invoke quiet;
  construct := fun h _ => (Throw (Thrown (VStr "no instance")), h);
  to_primitive := to_primitive quiet;
  string_to_number := string_to_number quiet;
  suite_context := suite_context quiet
|}.

(** The store at the time a case runs: next to the receiver of the describe
    callback ([handle], with its two setters) there is the context the runner
    binds when it calls a case, with two setters of its own. *)
Definition case_context : loc := 70%positive.
Definition case_timeout_setter : loc := 71%positive.
Definition case_slow_setter : loc := 72%positive.

Definition Runner_store : heap :=
  <[case_context := plain ObjectPrototype
               [("timeout", visible (VObj case_timeout_setter));
                ("slow", visible (VObj case_slow_setter))]]>
  (<[case_timeout_setter := function 1 "timeout" []]>
  (<[case_slow_setter := function 1 "slow" []]> Probe_store)).

(** ** The vocabulary of the properties *)

(** *** Call shapes and markings *)

Definition is_string (v : value) : bool :=
  match v with VStr _ => true | _ => false end.

(** The five marking operations, as applied to a target and a key. *)
Inductive marking :=
| MarkTest (decoratorName : value)
| MarkSlow (time : value)
| MarkTimeout (time : value)
| MarkOnly
| MarkSkip.

Definition mark (m : marking) : value -> option string -> M unit :=
  match m with
  | MarkTest d => test_result d
  | MarkSlow t => slow t
  | MarkTimeout t => timeout t
  | MarkOnly => only
  | MarkSkip => skip
  end.

Definition tag_key (m : marking) : string :=
  match m with
  | MarkTest _ => testNameSymbol
  | MarkSlow _ => slowSymbol
  | MarkTimeout _ => timeoutSymbol
  | MarkOnly => onlySymbol
  | MarkSkip => skipSymbol
  end.

Definition tag_value (m : marking) (propertyKey : option string) : value :=
  match m with
  | MarkTest d => js_or d (key_value propertyKey)
  | MarkSlow t | MarkTimeout t => t
  | MarkOnly | MarkSkip => VBool true
  end.

(** C8 as the specification states it: marking a behavior leaves every
    property the behavior already has as it was, whatever its name. *)
Definition tags_never_collide : Prop :=
  forall m target propertyKey s s' f p v,
    get (st_heap s) target (key_name propertyKey) = Some (VObj f) ->
    get (st_heap s) (VObj f) p = Some v ->
    mark m target propertyKey s = (Normal tt, s') ->
    get (st_heap s') (VObj f) p = Some v.

(** [addsNumbers] with a property of the user's own, named [__mts_test]. *)
Definition user_store : heap :=
  <[addsNumbers := function 0 "" [("__mts_test", visible (VStr "mine"))]]>
    Calculator_class.

(** Two objects that differ at most by a write of [x] under [k]. *)
Definition written (k : string) (x : value) (o1 o2 : object) : Prop :=
  o2 = o1 \/ o2 = set_own o1 k x.

(** *** The registration phase

    While the callback given to [describe] runs, the store does not change
    and the trace only grows.  [emits h P m]: from a state whose store is
    [h], the computation [m] keeps the store and appends events that all
    satisfy [P]. *)

Definition emits (h : heap) {A} (P : event -> Prop) (m : M A) : Prop :=
  forall s out s', st_heap s = h -> m s = (out, s') ->
    st_heap s' = h /\ exists evs, st_trace s' = st_trace s ++ evs /\ Forall P evs.

(** The prototypes on which the guard of the loop, [prototype.hasOwnProperty(key)],
    is the built-in test: those on which the name resolves to
    [Object.prototype.hasOwnProperty]. *)
Definition builtin_guard (h : heap) (prototype : value) : Prop :=
  get h prototype "hasOwnProperty" = Some (VObj ObjectPrototype_hasOwnProperty).

(** What the loop has found out about a member by the time it registers it. *)
Record tagged_member (h : heap) (prototype : value) (key : string)
       (method testName shouldSkip shouldOnly len : value) : Prop := {
  tm_own : hasOwnProperty h prototype key = true;
  tm_gate : instanceof_Function h prototype = true;
  tm_method : get h prototype key = Some method;
  tm_name : get h method testNameSymbol = Some testName;
  tm_named : truthy testName = true;
  tm_skip : get h method skipSymbol = Some shouldSkip;
  tm_only : get h method onlySymbol = Some shouldOnly;
  tm_length : get h method "length" = Some len
}.

Inductive registered (E : engine) (h : heap) (prototype this : value)
  : event -> Prop :=
| registered_sync key method testName shouldSkip shouldOnly len :
    tagged_member h prototype key method testName shouldSkip shouldOnly len ->
    js_eq E h len 0 = true ->
    registered E h prototype this
      (Case (testFunc shouldSkip shouldOnly) testName (CaseSync this method))
| registered_done key method testName shouldSkip shouldOnly len :
    tagged_member h prototype key method testName shouldSkip shouldOnly len ->
    js_eq E h len 0 = false ->
    js_eq E h len 1 = true ->
    registered E h prototype this
      (Case (testFunc shouldSkip shouldOnly) testName (CaseDone this method)).

Definition not_a_case (ev : event) : Prop :=
  match ev with Case _ _ _ => False | _ => True end.

(** The cases a translation registers are those the loop finds on the
    prototype of the target. *)
Definition case_of (E : engine) (h : heap) (target this : value) (ev : event)
  : Prop :=
  match ev with
  | Case _ _ _ =>
      exists prototype,
        get h target "prototype" = Some prototype
        /\ registered E h prototype this ev
  | _ => True
  end.

(** The events a computation has added to the trace. *)
Definition new_events (s s' : state) : list event :=
  drop (length (st_trace s)) (st_trace s').

Definition closure_method (c : closure) : option value :=
  match c with
  | CaseSync _ method | CaseDone _ method => Some method
  | _ => None
  end.

(** *** The run phase *)

Definition is_number (v : value) : bool :=
  match v with VNum _ => true | _ => false end.

(** The function found under [name] on the configuration handle, if any. *)
Definition setter (h : heap) (target : value) (name : string) : option loc :=
  match get h target name with
  | Some f => callable h f
  | None => None
  end.

(** The call that forwards a tag value through a setter. *)
Definition forward (target v : value) (via : option loc) : list event :=
  if is_number v
  then match via with Some l => [Invoke Configure l target [v]] | None => [] end
  else [].

(** One of the two conditionals of [applyTimes]. *)
Definition forward_step (E : engine) (name : string) (v target : value) : M unit :=
  h ← read_heap;
  if String.eqb (typeof h v) "number"
  then f ← get_prop target name; call E Configure f target [v];; mret tt
  else mret tt.

(** Reading a hook from its owner and calling it. *)
Definition hook_call (E : engine) (at_site : site) (owner : value) (name : string)
           (this : value) (args : list value) : M value :=
  f ← get_prop owner name; call E at_site f this args.

(** The arguments a closure passes on from those the runner gave it. *)
Definition closure_args (c : closure) (args : list value) : list value :=
  if (0 <? closure_length c)%nat then [arg0 args] else [].

(** A case closure configures, then calls the body on the stored instance. *)
Definition configures (this : value) (ev : event) : Prop :=
  exists l a, ev = Invoke Configure l this a.


(** *** The four hooks *)

Inductive hook := StaticBefore | StaticAfter | InstanceBefore | InstanceAfter.

Definition hook_site (k : hook) : site :=
  match k with
  | StaticBefore => BeforeAllHook
  | StaticAfter => AfterAllHook
  | InstanceBefore => BeforeEachHook
  | InstanceAfter => AfterEachHook
  end.



Definition record (s : state) (ev : event) : state :=
  {| st_heap := st_heap s; st_instance := st_instance s;
     st_trace := st_trace s ++ [ev] |}.


(** The arguments a hook of [n] declared parameters is called with. *)
Definition convention (n : nat) (done : value) : list value :=
  if (n =? 0)%nat then [] else [done].


(** *** Exactly one call *)

(** From [s], [callee] is called once, on [receiver] and with [args]: the run
    ends as the call ends, in the store the call leaves, with the call
    recorded and [instance] as it was.  If [callee] is not a function a
    TypeError is raised and nothing else happens. *)
Definition calls_once (E : engine) (at_site : site) (callee receiver : value)
           (args : list value) (s : state) (out : outcome value) (s' : state)
  : Prop :=
  match callable (st_heap s) callee with
  | Some l =>
      invoke E (st_heap s) l receiver args = (out, st_heap s')
      /\ st_instance s' = st_instance s
      /\ st_trace s' = st_trace s ++ [Invoke at_site l receiver args]
  | None => out = Throw TypeError /\ s' = s
  end.

(** The same for the member [name] of [owner], as read in [s]. *)
Definition calls_member (E : engine) (at_site : site) (owner : value)
           (name : string) (receiver : value) (args : list value)
           (s : state) (out : outcome value) (s' : state) : Prop :=
  match get (st_heap s) owner name with
  | Some callee => calls_once E at_site callee receiver args s out s'
  | None => out = Throw TypeError /\ s' = s
  end.

(** What one conditional of [applyTimes] does with the tag value [v]: if it
    is a number, the member [name] of [target] is called once, on [target]
    and with [v] alone, and the step ends normally if and only if that call
    does; if it is not a number, nothing happens. *)
Definition forwards (E : engine) (target : value) (name : string) (v : value)
           (s : state) (out : outcome unit) (s' : state) : Prop :=
  if is_number v
  then exists o, calls_member E Configure target name target [v] s o s'
                 /\ out = match o with Normal _ => Normal tt | Throw e => Throw e end
  else out = Normal tt /\ s' = s.

(** *** The per-case instance *)



(** *** The shape of a translation *)

(** The events by which the adapter hands something to the runner, as
    opposed to those by which it runs user code or writes [instance]. *)
Definition is_registration (ev : event) : Prop :=
  match ev with
  | New _ | Invoke _ _ _ _ | SetInstance _ => False
  | _ => True
  end.

(** The closures [beforeEachFunction] and [afterEachFunction] can yield. *)
Definition is_setup (target prototype : value) (c : closure) : Prop :=
  c = BeforeEachDefault target \/ c = BeforeEachDone target prototype
  \/ c = BeforeEachSync target prototype.

Definition is_teardown (prototype : value) (c : closure) : Prop :=
  c = AfterEachDefault \/ c = AfterEachDone prototype \/ c = AfterEachSync prototype.

(** What lines 66-76 (and 77-87) register for a static hook: nothing when
    the hook reads falsy, one closure of either convention otherwise. *)
Definition static_registration (h : heap) (target : value) (name : string)
           (done sync : event) (evs : list event) : Prop :=
  exists v, get h target name = Some v
            /\ (truthy v = false /\ evs = []
                \/ truthy v = true /\ (evs = [done] \/ evs = [sync])).

(** *** A class that inherits tagged members

    [Child]'s prototype has one member of its own and inherits those of
    [Probe]'s prototype. *)

Definition Child : loc := 40%positive.
Definition Child_prototype : loc := 41%positive.
Definition own_member : loc := 42%positive.

Definition Child_store : heap :=
  <[Child := function 0 "Child" [("prototype", hidden (VObj Child_prototype))]]>
  (<[Child_prototype := plain Probe_prototype
               [("constructor", hidden (VObj Child));
                ("own", visible (VObj own_member))]]>
  (<[own_member := function 0 "" [("__mts_test", visible (VStr "own"))]]>
     Probe_store)).

(** * Properties *)

(** ** Running the monad *)

Lemma run_bind {A B} (m : M A) (f : A -> M B) (s : state) :
  (m ≫= f) s = match m s with
               | (Normal a, s') => f a s'
               | (Throw e, s') => (Throw e, s')
               end.
Proof. reflexivity. Qed.

Lemma run_ret {A} (a : A) (s : state) : (mret a : M A) s = (Normal a, s).
Proof. reflexivity. Qed.

Lemma bind_inv {A B} (m : M A) (f : A -> M B) s out s' :
  (m ≫= f) s = (out, s') ->
  (exists a s1, m s = (Normal a, s1) /\ f a s1 = (out, s'))
  \/ (exists e, m s = (Throw e, s') /\ out = Throw e).
Proof.
  rewrite run_bind. destruct (m s) as [[a|e] s1]; intros H.
  - left. eauto.
  - right. inversion H; subst. eauto.
Qed.

Lemma get_prop_inv v k s out s' :
  get_prop v k s = (out, s') ->
  s' = s /\ (out = Throw TypeError /\ get (st_heap s) v k = None
             \/ exists x, out = Normal x /\ get (st_heap s) v k = Some x).
Proof.
  unfold get_prop. destruct (get (st_heap s) v k); intros H; inversion H; eauto.
Qed.

Lemma get_prop_some v k s x :
  get (st_heap s) v k = Some x -> get_prop v k s = (Normal x, s).
Proof. unfold get_prop. intros ->. reflexivity. Qed.

(** ** The two call shapes of [suite] and [test] *)

Lemma typeof_string h v : String.eqb (typeof h v) "string" = is_string v.
Proof.
  destruct v; try reflexivity. unfold typeof.
  destruct (callable h (VObj l)); reflexivity.
Qed.

(** A non-empty string selects the configure-then-apply form. *)
Lemma suite_named E n s :
  n <> "" -> suite E (VStr n) s = (Normal (Decorator (VStr n)), s).
Proof.
  intros Hn. unfold suite. rewrite run_bind. unfold read_heap.
  rewrite typeof_string. simpl.
  destruct (String.eqb_spec n ""); [contradiction | reflexivity].
Qed.

Lemma test_named n k s :
  n <> "" -> test (VStr n) k s = (Normal (Decorator (VStr n)), s).
Proof.
  intros Hn. unfold test. rewrite run_bind. unfold read_heap.
  rewrite typeof_string. simpl.
  destruct (String.eqb_spec n ""); [contradiction | reflexivity].
Qed.

(** Anything that is not a string is the direct target. *)
Lemma suite_direct E v s :
  is_string v = false ->
  suite E v s = (suite_result E (VBool false) v;; mret Applied) s.
Proof.
  intros Hv. unfold suite. rewrite run_bind. unfold read_heap.
  rewrite typeof_string, Hv. reflexivity.
Qed.

Lemma test_direct v k s :
  is_string v = false ->
  test v k s = (test_result (VBool false) v k;; mret Applied) s.
Proof.
  intros Hv. unfold test. rewrite run_bind. unfold read_heap.
  rewrite typeof_string, Hv. reflexivity.
Qed.

(** C3, at the empty name: [suite("")] and [test("")] do not return a
    decorator recording the name; the string is taken for the direct target
    and [result] is applied to it at once. *)
Theorem empty_name_is_applied_at_once E k s d :
  fst (suite E (VStr "") s) <> Normal (Decorator d)
  /\ suite E (VStr "") s = (suite_result E (VStr "") (VStr "");; mret Applied) s
  /\ fst (test (VStr "") k s) <> Normal (Decorator d)
  /\ test (VStr "") k s = (test_result (VStr "") (VStr "") k;; mret Applied) s.
Proof.
  assert (Hs : suite E (VStr "") s
               = (suite_result E (VStr "") (VStr "");; mret Applied) s) by reflexivity.
  assert (Ht : test (VStr "") k s
               = (test_result (VStr "") (VStr "") k;; mret Applied) s) by reflexivity.
  repeat split; trivial.
  - rewrite Hs, run_bind.
    destruct (suite_result E (VStr "") (VStr "") s) as [[[]|e] s1]; simpl; discriminate.
  - rewrite Ht, run_bind.
    destruct (test_result (VStr "") (VStr "") k s) as [[[]|e] s1]; simpl; discriminate.
Qed.

(** With the sample engine, [suite("")] registers a suite without a name and
    fails in its callback. *)
Example suite_empty_name_run :
  suite quiet (VStr "") (start Calculator_store)
  = (Throw TypeError,
     {| st_heap := Calculator_store; st_instance := VUndefined;
        st_trace := [Describe VUndefined] |}).
Proof. vm_compute. reflexivity. Qed.

(** ** The store under a property write *)

Lemma assoc_app k ps qs :
  assoc k (ps ++ qs) = match assoc k ps with Some p => Some p | None => assoc k qs end.
Proof.
  induction ps as [|[k' p] ps IH]; simpl; [reflexivity|].
  destruct (String.eqb k k'); [reflexivity | exact IH].
Qed.

Lemma assoc_overwrite_eq k x ps p :
  assoc k ps = Some p ->
  assoc k (map (overwrite k x) ps)
  = Some {| p_value := x; p_enumerable := p_enumerable p |}.
Proof.
  induction ps as [|[k' q] ps IH]; simpl; [discriminate|].
  unfold overwrite at 1. simpl.
  destruct (String.eqb k k') eqn:Hk; simpl; rewrite Hk.
  - intros [= ->]. reflexivity.
  - exact IH.
Qed.

Lemma assoc_overwrite_ne k k' x ps :
  k' <> k -> assoc k' (map (overwrite k x) ps) = assoc k' ps.
Proof.
  intros Hne. induction ps as [|[k0 q] ps IH]; simpl; [reflexivity|].
  unfold overwrite at 1. simpl.
  destruct (String.eqb_spec k k0) as [->|Hk]; simpl.
  - destruct (String.eqb_spec k' k0); [contradiction | exact IH].
  - destruct (String.eqb k' k0); [reflexivity | exact IH].
Qed.

Lemma set_own_props o k x :
  o_props (set_own o k x)
  = match assoc k (o_props o) with
    | Some _ => map (overwrite k x) (o_props o)
    | None => (o_props o ++ [(k, visible x)])%list
    end.
Proof. reflexivity. Qed.

Lemma assoc_set_own_eq o k x :
  exists p, assoc k (o_props (set_own o k x)) = Some p /\ p_value p = x.
Proof.
  rewrite set_own_props. destruct (assoc k (o_props o)) as [p|] eqn:Hk.
  - eexists. split; [apply assoc_overwrite_eq; exact Hk | reflexivity].
  - exists (visible x). rewrite assoc_app, Hk. simpl.
    rewrite String.eqb_refl. split; reflexivity.
Qed.

Lemma assoc_set_own_ne o k x p :
  p <> k -> assoc p (o_props (set_own o k x)) = assoc p (o_props o).
Proof.
  intros Hne. rewrite set_own_props. destruct (assoc k (o_props o)) eqn:Hk.
  - apply assoc_overwrite_ne. exact Hne.
  - rewrite assoc_app. destruct (assoc p (o_props o)); [reflexivity|].
    simpl. destruct (String.eqb_spec p k); [contradiction | reflexivity].
Qed.

Lemma own_property_set_own_eq o k x :
  read_only o k = false ->
  exists p, own_property (set_own o k x) k = Some p /\ p_value p = x.
Proof.
  unfold read_only, own_property. simpl o_func.
  destruct (o_func o).
  - intros H. apply orb_false_elim in H as [-> ->]. apply assoc_set_own_eq.
  - intros _. apply assoc_set_own_eq.
Qed.

Lemma own_property_set_own_ne o k x p :
  p <> k -> own_property (set_own o k x) p = own_property o p.
Proof.
  intros Hne. unfold own_property. simpl o_func.
  rewrite (assoc_set_own_ne o k x p Hne). reflexivity.
Qed.

Section Write.

Variables (h : heap) (f : loc) (o : object) (k : string) (x : value).
Hypothesis allocated : h !! f = Some o.

Local Abbreviation h' := (<[f := set_own o k x]> h).

Lemma write_size : size h' = size h.
Proof. apply map_size_insert_Some. eauto. Qed.

Lemma written_lookup l :
  match h !! l, h' !! l with
  | Some o1, Some o2 => written k x o1 o2
  | None, None => True
  | _, _ => False
  end.
Proof.
  destruct (decide (l = f)) as [->|Hl].
  - rewrite lookup_insert_eq, allocated. right. reflexivity.
  - rewrite lookup_insert_ne by congruence. destruct (h !! l); [left|]; trivial.
Qed.

Lemma lookup_chain_written p fuel o1 o2 :
  p <> k -> written k x o1 o2 ->
  lookup_chain fuel h' o2 p = lookup_chain fuel h o1 p.
Proof.
  intros Hne. revert o1 o2. induction fuel as [|fuel IH]; intros o1 o2 Hw.
  - simpl. destruct Hw as [->| ->]; [reflexivity|].
    rewrite own_property_set_own_ne by exact Hne. reflexivity.
  - simpl.
    assert (Hown : own_property o2 p = own_property o1 p).
    { destruct Hw as [->| ->]; [reflexivity|].
      apply own_property_set_own_ne. exact Hne. }
    assert (Hproto : o_proto o2 = o_proto o1).
    { destruct Hw as [->| ->]; reflexivity. }
    rewrite Hown, Hproto. destruct (own_property o1 p); [reflexivity|].
    destruct (o_proto o1) as [q|]; [|reflexivity].
    pose proof (written_lookup q) as Hq.
    destruct (h !! q), (h' !! q); try contradiction; [|reflexivity].
    apply IH. exact Hq.
Qed.

Lemma to_object_written v :
  match to_object h v, to_object h' v with
  | Some o1, Some o2 => written k x o1 o2
  | None, None => True
  | _, _ => False
  end.
Proof.
  destruct v; simpl; try (left; reflexivity); trivial.
  pose proof (written_lookup l) as Hl.
  destruct (h !! l), (h' !! l); try contradiction; simpl; [exact Hl | left; reflexivity].
Qed.

(** A write leaves every property of another name as it was, on every value. *)
Lemma get_write_other v p : p <> k -> get h' v p = get h v p.
Proof.
  intros Hne. unfold get. pose proof (to_object_written v) as Hv.
  destruct (to_object h v), (to_object h' v); try contradiction; [|reflexivity].
  rewrite write_size, (lookup_chain_written p (size h) _ _ Hne Hv). reflexivity.
Qed.

(** A write is read back. *)
Lemma get_write_same : read_only o k = false -> get h' (VObj f) k = Some x.
Proof.
  intros Hro. unfold get, to_object.
  assert (Hf : h' !! f = Some (set_own o k x)) by apply lookup_insert_eq.
  rewrite Hf. simpl default.
  destruct (own_property_set_own_eq o k x Hro) as (p & Hp & Hx).
  destruct (size h'); simpl; rewrite Hp, Hx; reflexivity.
Qed.

End Write.

(** ** The marking operations *)

Lemma mark_writes m target propertyKey :
  mark m target propertyKey
  = (member ← get_prop target (key_name propertyKey);
     set_prop member (tag_key m) (tag_value m propertyKey)).
Proof. destruct m; reflexivity. Qed.

Lemma tag_key_writable m o : read_only o (tag_key m) = false.
Proof. unfold read_only. destruct (o_func o), m; reflexivity. Qed.

Lemma set_prop_object f k x s o :
  st_heap s !! f = Some o -> read_only o k = false ->
  set_prop (VObj f) k x s
  = (Normal tt, {| st_heap := <[f := set_own o k x]> (st_heap s);
                   st_instance := st_instance s; st_trace := st_trace s |}).
Proof. intros Hf Hro. unfold set_prop. rewrite Hf. simpl. rewrite Hro. reflexivity. Qed.

Lemma mark_run m target propertyKey s f o :
  get (st_heap s) target (key_name propertyKey) = Some (VObj f) ->
  st_heap s !! f = Some o ->
  mark m target propertyKey s
  = (Normal tt,
     {| st_heap := <[f := set_own o (tag_key m) (tag_value m propertyKey)]> (st_heap s);
        st_instance := st_instance s; st_trace := st_trace s |}).
Proof.
  intros Hget Hf. rewrite mark_writes, run_bind, (get_prop_some _ _ _ _ Hget).
  apply set_prop_object; [exact Hf | apply tag_key_writable].
Qed.

(** C8, counterexample: the tag key is the ordinary property name
    [__mts_test]; marking overwrites the user's property of that name. *)
Lemma tag_overwrites_user_property : ~ tags_never_collide.
Proof.
  intros H.
  specialize (H (MarkTest (VStr "adds numbers")) (VObj Calculator_prototype)
                (Some "addsNumbers") (start user_store)
                (snd (mark (MarkTest (VStr "adds numbers")) (VObj Calculator_prototype)
                           (Some "addsNumbers") (start user_store)))
                addsNumbers "__mts_test" (VStr "mine")).
  vm_compute in H. specialize (H eq_refl eq_refl eq_refl). discriminate H.
Qed.

(** C8, amended: the tag is stored under the string key [tag_key m], one of
    the five names below, and reads back from it; marking leaves every
    property of another name as it was, and a later write to a property of
    another name leaves the tag as it was. *)
Theorem tags_are_stored_under_string_keys m target propertyKey s s' f o :
  get (st_heap s) target (key_name propertyKey) = Some (VObj f) ->
  st_heap s !! f = Some o ->
  mark m target propertyKey s = (Normal tt, s') ->
  In (tag_key m) ["__mts_test"; "__mts_slow"; "__mts_timout"; "__mts_only"; "__mts_skip"]
  /\ get (st_heap s') (VObj f) (tag_key m) = Some (tag_value m propertyKey)
  /\ (forall v p, p <> tag_key m -> get (st_heap s') v p = get (st_heap s) v p)
  /\ (forall p x s'', p <> tag_key m ->
        set_prop (VObj f) p x s' = (Normal tt, s'') ->
        get (st_heap s'') (VObj f) (tag_key m) = Some (tag_value m propertyKey)).
Proof.
  intros Hget Hf Hrun. rewrite (mark_run _ _ _ _ _ _ Hget Hf) in Hrun.
  injection Hrun as <-. simpl st_heap.
  assert (Hread : get (<[f := set_own o (tag_key m) (tag_value m propertyKey)]> (st_heap s))
                      (VObj f) (tag_key m) = Some (tag_value m propertyKey)).
  { exact (get_write_same _ _ _ _ _ (tag_key_writable m o)). }
  split; [|split; [exact Hread|split]].
  - destruct m; simpl; tauto.
  - intros v p Hp. apply get_write_other; assumption.
  - intros p x s'' Hp Hset. unfold set_prop in Hset. simpl st_heap in Hset.
    rewrite lookup_insert_eq in Hset. simpl in Hset.
    destruct (read_only _ p); [discriminate|].
    injection Hset as <-. simpl st_heap.
    rewrite (get_write_other _ _ _ p x (lookup_insert_eq _ _ _)); [exact Hread|].
    congruence.
Qed.

Lemma tags_are_stored_under_string_keys_witness :
  let s' := snd (mark (MarkSlow (VNum 250)) (VObj Calculator_prototype)
                      (Some "addsNumbers") (start user_store)) in
  get (st_heap s') (VObj addsNumbers) slowSymbol = Some (VNum 250)
  /\ (forall v p, p <> slowSymbol -> get (st_heap s') v p = get user_store v p).
Proof.
  intros s'.
  destruct (tags_are_stored_under_string_keys
              (MarkSlow (VNum 250)) (VObj Calculator_prototype) (Some "addsNumbers")
              (start user_store) s' addsNumbers
              (function 0 "" [("__mts_test", visible (VStr "mine"))])
              eq_refl eq_refl eq_refl) as (_ & Hread & Hother & _).
  split; [exact Hread | exact Hother].
Defined.

(** Marking twice with non-empty names: the second name is the one kept. *)
Lemma test_last_write_wins n1 n2 target propertyKey s f o :
  n1 <> "" -> n2 <> "" ->
  key_name propertyKey <> testNameSymbol ->
  get (st_heap s) target (key_name propertyKey) = Some (VObj f) ->
  st_heap s !! f = Some o ->
  exists s1 s2,
    test (VStr n1) None s = (Normal (Decorator (VStr n1)), s)
    /\ test_result (VStr n1) target propertyKey s = (Normal tt, s1)
    /\ test (VStr n2) None s1 = (Normal (Decorator (VStr n2)), s1)
    /\ test_result (VStr n2) target propertyKey s1 = (Normal tt, s2)
    /\ get (st_heap s2) (VObj f) testNameSymbol = Some (VStr n2).
Proof.
  intros H1 H2 Hkey Hget Hf.
  set (s1 := {| st_heap := <[f := set_own o testNameSymbol
                                   (tag_value (MarkTest (VStr n1)) propertyKey)]> (st_heap s);
                st_instance := st_instance s; st_trace := st_trace s |}).
  assert (Hm1 : test_result (VStr n1) target propertyKey s = (Normal tt, s1)).
  { exact (mark_run (MarkTest (VStr n1)) _ _ _ _ _ Hget Hf). }
  assert (Hf1 : st_heap s1 !! f
                = Some (set_own o testNameSymbol
                          (tag_value (MarkTest (VStr n1)) propertyKey))).
  { apply lookup_insert_eq. }
  assert (Hget1 : get (st_heap s1) target (key_name propertyKey) = Some (VObj f)).
  { simpl st_heap. rewrite (get_write_other _ _ _ _ _ Hf); assumption. }
  pose proof (mark_run (MarkTest (VStr n2)) _ _ _ _ _ Hget1 Hf1) as Hm2.
  simpl mark in Hm2.
  exists s1. eexists.
  split; [apply test_named; exact H1|].
  split; [exact Hm1|].
  split; [apply test_named; exact H2|].
  split; [exact Hm2|].
  simpl st_heap.
  rewrite (get_write_same _ _ _ _ _ (tag_key_writable (MarkTest (VStr n2)) _)).
  simpl. unfold js_or. simpl.
  destruct (String.eqb_spec n2 ""); [contradiction|reflexivity].
Qed.

(** C9, at the empty second name: after marking [addsNumbers] with
    "adds numbers", marking it with "" raises a TypeError and the tag is
    still the first name. *)
Theorem second_empty_name_is_not_recorded :
  let s1 := snd (test_result (VStr "adds numbers") (VObj Calculator_prototype)
                             (Some "addsNumbers") (start Calculator_class)) in
  test (VStr "") None s1 = (Throw TypeError, s1)
  /\ get (st_heap s1) (VObj addsNumbers) testNameSymbol = Some (VStr "adds numbers").
Proof. vm_compute. split; reflexivity. Qed.

(** ** The registration phase *)

Section Registration.

Variable E : engine.
Variable h : heap.

Lemma emits_ret {A} P (a : A) : emits h P (mret a).
Proof.
  intros s out s' Hs H. rewrite run_ret in H. injection H as <- <-.
  split; [exact Hs|]. exists []. rewrite app_nil_r. auto.
Qed.

Lemma emits_throw {A} P e : emits h P (throw e : M A).
Proof.
  intros s out s' Hs H. injection H as <- <-.
  split; [exact Hs|]. exists []. rewrite app_nil_r. auto.
Qed.

Lemma emits_bind {A B} P (m : M A) (f : A -> M B) :
  emits h P m -> (forall a, emits h P (f a)) -> emits h P (m ≫= f).
Proof.
  intros Hm Hf s out s' Hs H.
  destruct (bind_inv _ _ _ _ _ H) as [(a & s1 & H1 & H2)|(e & H1 & ->)].
  - destruct (Hm _ _ _ Hs H1) as (Hs1 & evs1 & Ht1 & HP1).
    destruct (Hf a _ _ _ Hs1 H2) as (Hs2 & evs2 & Ht2 & HP2).
    split; [exact Hs2|]. exists (evs1 ++ evs2).
    rewrite Ht2, Ht1, app_assoc. split; [reflexivity|].
    apply Forall_app; auto.
  - exact (Hm _ _ _ Hs H1).
Qed.

Lemma emits_get {A} P v k (f : value -> M A) :
  (forall x, get h v k = Some x -> emits h P (f x)) -> emits h P (get_prop v k ≫= f).
Proof.
  intros Hf s out s' Hs H. rewrite run_bind in H. unfold get_prop in H.
  rewrite Hs in H. destruct (get h v k) as [x|] eqn:Hget.
  - exact (Hf x eq_refl _ _ _ Hs H).
  - injection H as <- <-. split; [exact Hs|]. exists []. rewrite app_nil_r. auto.
Qed.

Lemma emits_heap {A} P (f : heap -> M A) :
  emits h P (f h) -> emits h P (read_heap ≫= f).
Proof.
  intros Hf s out s' Hs H. rewrite run_bind in H. unfold read_heap in H.
  rewrite Hs in H. exact (Hf _ _ _ Hs H).
Qed.

Lemma emits_emit P ev : P ev -> emits h P (emit ev).
Proof.
  intros HP s out s' Hs H. injection H as <- <-. simpl.
  split; [exact Hs|]. exists [ev]. auto.
Qed.

Lemma emits_mono {A} (P Q : event -> Prop) (m : M A) :
  (forall ev, P ev -> Q ev) -> emits h P m -> emits h Q m.
Proof.
  intros HPQ Hm s out s' Hs H.
  destruct (Hm _ _ _ Hs H) as (Hs' & evs & Ht & HP).
  split; [exact Hs'|]. exists evs. split; [exact Ht|].
  eapply Forall_impl; eauto.
Qed.

Lemma emits_for_each {A} P (xs : list A) (body : A -> M unit) :
  (forall x, emits h P (body x)) -> emits h P (for_each xs body).
Proof.
  intros Hbody. induction xs as [|x xs IH]; simpl.
  - apply emits_ret.
  - apply emits_bind; [apply Hbody | intros _; exact IH].
Qed.

Lemma emits_for_in P v (body : string -> M unit) :
  (forall key, emits h P (body key)) -> emits h P (for_in v body).
Proof.
  intros Hbody s out s' Hs H. unfold for_in in H.
  exact (emits_for_each P _ body Hbody _ _ _ Hs H).
Qed.

Lemma loop_body_emits prototype this key :
  emits h (registered E h prototype this) (loop_body E prototype this key).
Proof.
  unfold loop_body. apply emits_heap.
  destruct (hasOwnProperty h prototype key) eqn:Hown; [|apply emits_ret].
  destruct (instanceof_Function h prototype) eqn:Hgate; [|apply emits_ret].
  simpl.
  apply emits_get; intros method Hmethod.
  apply emits_get; intros testName Hname.
  apply emits_get; intros shouldSkip Hskip.
  apply emits_get; intros shouldOnly Honly.
  destruct (truthy testName) eqn:Hnamed; [|apply emits_ret].
  apply emits_get; intros len Hlen.
  assert (Hm : tagged_member h prototype key method testName shouldSkip shouldOnly len)
    by (constructor; assumption).
  destruct (js_eq E h len 0) eqn:H0.
  - apply emits_emit. eapply registered_sync; eassumption.
  - apply emits_get; intros len' Hlen'.
    assert (len' = len) as -> by congruence.
    destruct (js_eq E h len 1) eqn:H1; [|apply emits_ret].
    apply emits_emit. eapply registered_done; eassumption.
Qed.

Lemma static_before_emits target : emits h not_a_case (static_before E target).
Proof.
  unfold static_before. apply emits_get; intros b _.
  destruct (truthy b); [|apply emits_ret].
  apply emits_get; intros b' _. apply emits_get; intros len _.
  apply emits_heap. destruct (js_gt E h len 0); apply emits_emit; exact I.
Qed.

Lemma static_after_emits target : emits h not_a_case (static_after E target).
Proof.
  unfold static_after. apply emits_get; intros b _.
  destruct (truthy b); [|apply emits_ret].
  apply emits_get; intros b' _. apply emits_get; intros len _.
  apply emits_heap. destruct (js_gt E h len 0); apply emits_emit; exact I.
Qed.

Lemma beforeEachFunction_emits target prototype :
  emits h (fun _ => False) (beforeEachFunction E target prototype).
Proof.
  unfold beforeEachFunction. apply emits_get; intros b _.
  destruct (truthy b); [|apply emits_ret].
  apply emits_get; intros b' _. apply emits_get; intros len _.
  apply emits_heap. destruct (js_gt E h len 0); apply emits_ret.
Qed.

Lemma afterEachFunction_emits prototype :
  emits h (fun _ => False) (afterEachFunction E prototype).
Proof.
  unfold afterEachFunction. apply emits_get; intros b _.
  destruct (truthy b); [|apply emits_ret].
  apply emits_get; intros b' _. apply emits_get; intros len _.
  apply emits_heap. destruct (js_gt E h len 0); apply emits_ret.
Qed.

Lemma suite_callback_emits target this :
  emits h (case_of E h target this) (suite_callback E target this).
Proof.
  unfold suite_callback.
  apply emits_bind.
  { intros s out s' Hs H. injection H as <- <-. simpl.
    split; [exact Hs|]. exists []. rewrite app_nil_r. auto. }
  intros _. apply emits_bind.
  { eapply emits_mono; [|apply static_before_emits]. intros [] H; simpl in *; tauto. }
  intros _. apply emits_bind.
  { eapply emits_mono; [|apply static_after_emits]. intros [] H; simpl in *; tauto. }
  intros _. apply emits_get; intros prototype Hproto.
  apply emits_bind.
  { eapply emits_mono; [|apply beforeEachFunction_emits]. intros ev []. }
  intros b. apply emits_bind; [apply emits_emit; exact I|].
  intros _. apply emits_bind.
  { eapply emits_mono; [|apply afterEachFunction_emits]. intros ev []. }
  intros a. apply emits_bind; [apply emits_emit; exact I|].
  intros _. apply emits_for_in. intros key.
  eapply emits_mono; [|apply loop_body_emits].
  intros ev Hev. destruct Hev; simpl; eauto using registered.
Qed.

End Registration.

(** ** Which members a translation registers *)

Lemma new_events_app s s' evs :
  st_trace s' = st_trace s ++ evs -> new_events s s' = evs.
Proof. intros H. unfold new_events. rewrite H. apply drop_app_length. Qed.

Lemma suite_result_emits E h decoratorName target :
  emits h (case_of E h target (suite_context E)) (suite_result E decoratorName target).
Proof.
  unfold suite_result, describeFunction.
  apply emits_bind.
  { destruct (truthy decoratorName); [apply emits_ret|].
    intros s out s' Hs H. apply get_prop_inv in H as [-> _].
    split; [exact Hs|]. exists []. rewrite app_nil_r. auto. }
  intros targetName. apply emits_bind; [apply emits_emit; exact I|].
  intros _. apply suite_callback_emits.
Qed.

Lemma suite_result_cases E decoratorName target s out s' :
  suite_result E decoratorName target s = (out, s') ->
  Forall (case_of E (st_heap s) target (suite_context E)) (new_events s s').
Proof.
  intros H.
  destruct (suite_result_emits E (st_heap s) decoratorName target s out s' eq_refl H)
    as (_ & evs & Ht & Hall).
  rewrite (new_events_app _ _ _ Ht). exact Hall.
Qed.

(** Every registered case comes from a member found by the loop. *)
Lemma registered_case_inv E decoratorName target s out s' e name c :
  suite_result E decoratorName target s = (out, s') ->
  In (Case e name c) (new_events s s') ->
  exists prototype key method shouldSkip shouldOnly len,
    get (st_heap s) target "prototype" = Some prototype
    /\ tagged_member (st_heap s) prototype key method name shouldSkip shouldOnly len
    /\ e = testFunc shouldSkip shouldOnly
    /\ (js_eq E (st_heap s) len 0 = true /\ c = CaseSync (suite_context E) method
        \/ js_eq E (st_heap s) len 0 = false /\ js_eq E (st_heap s) len 1 = true
           /\ c = CaseDone (suite_context E) method).
Proof.
  intros Hrun Hin.
  pose proof (suite_result_cases _ _ _ _ _ _ Hrun) as Hall.
  rewrite Forall_forall in Hall. apply list_elem_of_In in Hin.
  destruct (Hall _ Hin) as (prototype & Hproto & Hreg).
  inversion Hreg; subst; exists prototype; do 5 eexists;
    (split; [exact Hproto|]); (split; [eassumption|]); (split; [reflexivity|]);
    [left|right]; auto.
Qed.

(** The guard of the loop tests the prototype, not the member: when the
    prototype is not an instance of [Function], as for a class that extends
    nothing, no case is registered. *)
Lemma plain_prototype_registers_nothing E decoratorName target s out s' prototype :
  get (st_heap s) target "prototype" = Some prototype ->
  instanceof_Function (st_heap s) prototype = false ->
  suite_result E decoratorName target s = (out, s') ->
  forall e name c, ~ In (Case e name c) (new_events s s').
Proof.
  intros Hproto Hgate Hrun e name c Hin.
  destruct (registered_case_inv _ _ _ _ _ _ _ _ _ Hrun Hin)
    as (prototype' & key & method & shouldSkip & shouldOnly & len & Hproto' & Hm & _).
  destruct Hm. congruence.
Qed.

(** C1, on the specification's example: translating [Calculator] registers
    the suite and the two per-case closures, and no case. *)
Theorem Calculator_registers_no_case E :
  suite E (VObj Calculator) (start Calculator_store)
  = (Normal Applied,
     {| st_heap := Calculator_store; st_instance := VUndefined;
        st_trace := [Describe (VStr "Calculator");
                     BeforeEach (BeforeEachDefault (VObj Calculator));
                     AfterEach AfterEachDefault] |}).
Proof. vm_compute. reflexivity. Qed.

(** C5, on [Calculator] with [addsNumbers] tagged
    [@test("adds numbers") @skip @only]: the behavior carries the display
    name and both flags, it has no parameter, and the translation registers
    the suite and the two per-case closures, and no case: the behavior does
    not reach the skip entry point, nor any other. *)
Theorem flagged_Calculator_registers_no_case E :
  get Calculator_flagged (VObj addsNumbers) testNameSymbol = Some (VStr "adds numbers")
  /\ get Calculator_flagged (VObj addsNumbers) skipSymbol = Some (VBool true)
  /\ get Calculator_flagged (VObj addsNumbers) onlySymbol = Some (VBool true)
  /\ get Calculator_flagged (VObj addsNumbers) "length" = Some (VNum 0)
  /\ suite E (VObj Calculator) (start Calculator_flagged)
     = (Normal Applied,
        {| st_heap := Calculator_flagged; st_instance := VUndefined;
           st_trace := [Describe (VStr "Calculator");
                        BeforeEach (BeforeEachDefault (VObj Calculator));
                        AfterEach AfterEachDefault] |}).
Proof. vm_compute. repeat split; reflexivity. Qed.

(** Past the guard, a tagged member of no parameter, or of one, is
    registered under its display name through the entry point its flags
    select. *)
Lemma loop_body_registers E prototype this key s method testName shouldSkip shouldOnly len :
  tagged_member (st_heap s) prototype key method testName shouldSkip shouldOnly len ->
  (js_eq E (st_heap s) len 0 = true ->
   loop_body E prototype this key s
   = (Normal tt, record s (Case (testFunc shouldSkip shouldOnly) testName
                                (CaseSync this method))))
  /\ (js_eq E (st_heap s) len 0 = false -> js_eq E (st_heap s) len 1 = true ->
      loop_body E prototype this key s
      = (Normal tt, record s (Case (testFunc shouldSkip shouldOnly) testName
                                   (CaseDone this method)))).
Proof.
  intros [Hown Hgate Hmethod Hname Hnamed Hskip Honly Hlen].
  split.
  - intros H0. unfold loop_body.
    rewrite run_bind. unfold read_heap. rewrite Hown, Hgate. simpl.
    rewrite run_bind, (get_prop_some _ _ _ _ Hmethod).
    rewrite run_bind, (get_prop_some _ _ _ _ Hname).
    rewrite run_bind, (get_prop_some _ _ _ _ Hskip).
    rewrite run_bind, (get_prop_some _ _ _ _ Honly).
    rewrite Hnamed.
    rewrite run_bind, (get_prop_some _ _ _ _ Hlen), H0. reflexivity.
  - intros H0 H1. unfold loop_body.
    rewrite run_bind. unfold read_heap. rewrite Hown, Hgate. simpl.
    rewrite run_bind, (get_prop_some _ _ _ _ Hmethod).
    rewrite run_bind, (get_prop_some _ _ _ _ Hname).
    rewrite run_bind, (get_prop_some _ _ _ _ Hskip).
    rewrite run_bind, (get_prop_some _ _ _ _ Honly).
    rewrite Hnamed.
    rewrite run_bind, (get_prop_some _ _ _ _ Hlen), H0.
    rewrite run_bind, (get_prop_some _ _ _ _ Hlen), H1. reflexivity.
Qed.

Lemma get_object h l k : exists x, get h (VObj l) k = Some x.
Proof. unfold get. simpl. eauto. Qed.

Lemma get_function_length h l o fn :
  h !! l = Some o -> o_func o = Some fn ->
  get h (VObj l) "length" = Some (VNum (Z.of_nat (f_length fn))).
Proof.
  intros Hl Hfn. unfold get. simpl. rewrite Hl. simpl.
  assert (Hown : own_property o "length"
                 = Some (hidden (VNum (Z.of_nat (f_length fn))))).
  { unfold own_property. rewrite Hfn. reflexivity. }
  destruct (size h); simpl; rewrite Hown; reflexivity.
Qed.

Lemma js_eq_number E h n m : js_eq E h (VNum n) m = (n =? m)%Z.
Proof. reflexivity. Qed.


(** Every case a translation registers goes through the entry point the
    flags of its behavior select: [it.skip] when the skip flag is set,
    whatever the only flag; [it.only] when only the only flag is set; [it]
    when neither is.  The behavior carries the display name it is registered
    under. *)
Theorem skip_takes_precedence E decoratorName target s out s' e name c :
  suite_result E decoratorName target s = (out, s') ->
  In (Case e name c) (new_events s s') ->
  exists method shouldSkip shouldOnly,
    closure_method c = Some method
    /\ get (st_heap s) method testNameSymbol = Some name /\ truthy name = true
    /\ get (st_heap s) method skipSymbol = Some shouldSkip
    /\ get (st_heap s) method onlySymbol = Some shouldOnly
    /\ (truthy shouldSkip = true -> e = skipFunction)
    /\ (truthy shouldSkip = false -> truthy shouldOnly = true -> e = onlyFunction)
    /\ (truthy shouldSkip = false -> truthy shouldOnly = false -> e = itFunction).
Proof.
  intros Hrun Hin.
  destruct (registered_case_inv _ _ _ _ _ _ _ _ _ Hrun Hin)
    as (prototype & key & method & shouldSkip & shouldOnly & len & _ & Hm & -> & Hc).
  exists method, shouldSkip, shouldOnly. destruct Hm.
  repeat split; try assumption.
  - destruct Hc as [[_ ->]|(_ & _ & ->)]; reflexivity.
  - unfold testFunc. intros ->. reflexivity.
  - unfold testFunc. intros -> ->. reflexivity.
  - unfold testFunc. intros -> ->. reflexivity.
Qed.


(** C7: a member that carries no display-name tag is registered by no case,
    whatever its other tags. *)
Theorem untagged_member_is_never_registered
        E decoratorName target s out s' method e name c :
  get (st_heap s) method testNameSymbol = Some VUndefined ->
  suite_result E decoratorName target s = (out, s') ->
  In (Case e name c) (new_events s s') ->
  closure_method c <> Some method.
Proof.
  intros Hnone Hrun Hin Hc.
  destruct (registered_case_inv _ _ _ _ _ _ _ _ _ Hrun Hin)
    as (prototype & key & method' & shouldSkip & shouldOnly & len & _ & Htm & _ & Hcase).
  destruct Htm.
  assert (method' = method) as ->.
  { destruct Hcase as [[_ ->]|(_ & _ & ->)]; simpl in Hc; congruence. }
  assert (name = VUndefined) as -> by congruence.
  discriminate.
Qed.

(** ** The run phase: what the closures do *)

Lemma typeof_number h v : String.eqb (typeof h v) "number" = is_number v.
Proof.
  destruct v; try reflexivity. unfold typeof.
  destruct (callable h (VObj l)); reflexivity.
Qed.

Section Running.

Variable E : engine.

Lemma call_inv at_site f this args s out s' :
  call E at_site f this args s = (out, s') ->
  st_instance s' = st_instance s
  /\ (callable (st_heap s) f = None /\ out = Throw TypeError /\ s' = s
      \/ exists l, callable (st_heap s) f = Some l
                   /\ st_trace s' = st_trace s ++ [Invoke at_site l this args]
                   /\ invoke E (st_heap s) l this args = (out, st_heap s')).
Proof.
  unfold call. destruct (callable (st_heap s) f) as [l|].
  - destruct (invoke E (st_heap s) l this args) as [o h1] eqn:Hinv.
    intros H. injection H as <- <-. simpl. split; [reflexivity|]. right. eauto.
  - intros H. injection H as <- <-. split; [reflexivity|]. left. auto.
Qed.


Lemma write_instance_run v s :
  write_instance v s
  = (Normal tt, {| st_heap := st_heap s; st_instance := v;
                   st_trace := st_trace s ++ [SetInstance v] |}).
Proof. reflexivity. Qed.

Lemma applyTimes_steps method target s :
  applyTimes E method target s
  = (timeoutValue ← get_prop method timeoutSymbol;
     slowValue ← get_prop method slowSymbol;
     forward_step E "timeout" timeoutValue target;;
     forward_step E "slow" slowValue target;;
     mret target) s.
Proof. reflexivity. Qed.

Lemma forward_step_inv name v target s out s' :
  forward_step E name v target s = (out, s') ->
  st_instance s' = st_instance s
  /\ exists evs,
       st_trace s' = st_trace s ++ evs
       /\ evs `prefix_of` forward target v (setter (st_heap s) target name)
       /\ (out = Normal tt -> evs = forward target v (setter (st_heap s) target name)
                              /\ (is_number v = true ->
                                  is_Some (setter (st_heap s) target name)))
       /\ (is_number v = false -> out = Normal tt /\ s' = s).
Proof.
  unfold forward_step. rewrite run_bind. unfold read_heap.
  rewrite typeof_number. unfold forward, setter.
  destruct (is_number v).
  - rewrite run_bind. unfold get_prop at 1.
    destruct (get (st_heap s) target name) as [f|].
    + rewrite run_bind.
      destruct (call E Configure f target [v] s) as [o s1] eqn:Hcall.
      destruct (call_inv _ _ _ _ _ _ _ Hcall)
        as [Hi [(Hc & -> & ->)|(l & Hc & Ht & Hinv)]]; rewrite Hc.
      * intros H. injection H as <- <-. split; [reflexivity|].
        exists []. rewrite app_nil_r.
        repeat split; try discriminate. apply prefix_nil.
      * intros H. split; [destruct o; injection H as <- <-; exact Hi|].
        exists [Invoke Configure l target [v]].
        destruct o; injection H as <- <-; repeat split; eauto; discriminate.
    + intros H. injection H as <- <-. split; [reflexivity|].
      exists []. rewrite app_nil_r. repeat split; try discriminate. apply prefix_nil.
  - intros H. injection H as <- <-. split; [reflexivity|].
    exists []. rewrite app_nil_r. repeat split; auto; discriminate.
Qed.

Lemma hook_call_inv at_site owner name this args s out s' :
  hook_call E at_site owner name this args s = (out, s') ->
  st_instance s' = st_instance s
  /\ (out = Throw TypeError /\ s' = s
      \/ exists l, st_trace s' = st_trace s ++ [Invoke at_site l this args]
                   /\ invoke E (st_heap s) l this args = (out, st_heap s')).
Proof.
  unfold hook_call. rewrite run_bind. unfold get_prop at 1.
  destruct (get (st_heap s) owner name) as [f|].
  - intros H. destruct (call_inv _ _ _ _ _ _ _ H)
      as [Hi [(_ & -> & ->)|(l & _ & Ht & Hinv)]]; eauto.
  - intros H. injection H as <- <-. auto.
Qed.

Lemma read_then_call at_site owner name args s :
  (f ← get_prop owner name; inst ← read_instance; call E at_site f inst args) s
  = hook_call E at_site owner name (st_instance s) args s.
Proof.
  unfold hook_call. rewrite !run_bind. unfold get_prop.
  destruct (get (st_heap s) owner name); reflexivity.
Qed.


(** The per-case teardown: save, clear, then the hook if there is one. *)
Lemma after_each_inv (hook : value -> M value) s out s' :
  (instanceReference ← read_instance; write_instance VUndefined;;
   hook instanceReference) s = (out, s') ->
  hook (st_instance s)
       {| st_heap := st_heap s; st_instance := VUndefined;
          st_trace := st_trace s ++ [SetInstance VUndefined] |} = (out, s').
Proof.
  rewrite run_bind. unfold read_instance.
  rewrite run_bind, write_instance_run. auto.
Qed.

Lemma forward_configures this v via : Forall (configures this) (forward this v via).
Proof.
  unfold forward. destruct (is_number v), via; repeat constructor.
  eexists _, _. reflexivity.
Qed.

Lemma prefix_Forall {A} (P : A -> Prop) (l1 l2 : list A) :
  l1 `prefix_of` l2 -> Forall P l2 -> Forall P l1.
Proof. intros [k ->] H. apply Forall_app in H as [H _]. exact H. Qed.

Lemma applyTimes_events method this s out s' :
  applyTimes E method this s = (out, s') ->
  st_instance s' = st_instance s
  /\ exists evs, st_trace s' = st_trace s ++ evs /\ Forall (configures this) evs.
Proof.
  rewrite applyTimes_steps. intros H.
  assert (Hstop : forall s0 : state, st_instance s0 = st_instance s0
             /\ exists evs, st_trace s0 = st_trace s0 ++ evs
                            /\ Forall (configures this) evs).
  { intros s0. split; [reflexivity|]. exists []. rewrite app_nil_r. auto. }
  apply bind_inv in H as [(tv & s0 & H0 & H)|(e & H0 & ->)];
    apply get_prop_inv in H0 as [-> _]; [|apply Hstop].
  apply bind_inv in H as [(sv & s0 & H0 & H)|(e & H0 & ->)];
    apply get_prop_inv in H0 as [-> _]; [|apply Hstop].
  apply bind_inv in H as [([] & s1 & H1 & H)|(e & H1 & ->)];
    destruct (forward_step_inv _ _ _ _ _ _ H1) as (Hi1 & evs1 & Ht1 & Hp1 & _).
  - apply bind_inv in H as [([] & s2 & H2 & H)|(e & H2 & ->)];
      destruct (forward_step_inv _ _ _ _ _ _ H2) as (Hi2 & evs2 & Ht2 & Hp2 & _);
      [injection H as <- <-|]; (split; [congruence|]);
      exists (evs1 ++ evs2); (split; [rewrite Ht2, Ht1, app_assoc; reflexivity|]);
      apply Forall_app; split;
        eapply prefix_Forall; eauto using forward_configures.
  - split; [exact Hi1|]. exists evs1. split; [exact Ht1|].
    eapply prefix_Forall; eauto using forward_configures.
Qed.

Lemma call_exact at_site f this args s out s' :
  call E at_site f this args s = (out, s') ->
  calls_once E at_site f this args s out s'.
Proof.
  unfold call, calls_once. destruct (callable (st_heap s) f) as [l|].
  - destruct (invoke E (st_heap s) l this args) as [o h1] eqn:Hinv.
    intros H. injection H as <- <-. simpl. auto.
  - intros H. injection H as <- <-. auto.
Qed.

Lemma hook_call_exact at_site owner name this args s out s' :
  hook_call E at_site owner name this args s = (out, s') ->
  calls_member E at_site owner name this args s out s'.
Proof.
  unfold hook_call, calls_member. rewrite run_bind. unfold get_prop at 1.
  destruct (get (st_heap s) owner name) as [f|].
  - apply call_exact.
  - intros H. injection H as <- <-. auto.
Qed.

Lemma forward_step_exact name v target s out s' :
  forward_step E name v target s = (out, s') ->
  forwards E target name v s out s'.
Proof.
  unfold forward_step, forwards. rewrite run_bind. unfold read_heap.
  rewrite typeof_number. destruct (is_number v).
  - rewrite run_bind. unfold get_prop at 1, calls_member.
    destruct (get (st_heap s) target name) as [f|].
    + rewrite run_bind.
      destruct (call E Configure f target [v] s) as [o s1] eqn:Hcall.
      apply call_exact in Hcall.
      destruct o as [r|e]; intros H; injection H as <- <-; eauto.
    + intros H. injection H as <- <-. exists (Throw TypeError). auto.
  - intros H. injection H as <- <-. auto.
Qed.

Lemma forwards_instance target name v s out s' :
  forwards E target name v s out s' -> st_instance s' = st_instance s.
Proof.
  unfold forwards, calls_member, calls_once. destruct (is_number v).
  - intros (o & H & _). destruct (get (st_heap s) target name) as [f|].
    + destruct (callable (st_heap s) f); [tauto|]. destruct H as [_ ->]. reflexivity.
    + destruct H as [_ ->]. reflexivity.
  - intros [_ ->]. reflexivity.
Qed.

(** [new target()], then the store of the result: the three ways it goes. *)
Lemma before_each_exact (k : M value) target s :
  (i ← js_new E target; write_instance i;; k) s
  = match callable (st_heap s) target with
    | None => (Throw TypeError, s)
    | Some l =>
        match construct E (st_heap s) l with
        | (Throw e, h1) =>
            (Throw e, {| st_heap := h1; st_instance := st_instance s;
                         st_trace := st_trace s ++ [New target] |})
        | (Normal i, h1) =>
            k {| st_heap := h1; st_instance := VObj i;
                 st_trace := st_trace s ++ [New target; SetInstance (VObj i)] |}
        end
    end.
Proof.
  rewrite run_bind. unfold js_new.
  destruct (callable (st_heap s) target) as [l|]; [|reflexivity].
  destruct (construct E (st_heap s) l) as [[i|e] h1]; [|reflexivity].
  rewrite run_bind, write_instance_run. simpl. rewrite <- app_assoc. reflexivity.
Qed.

(** A case closure, step by step: the timeout tag, the slow tag, the body. *)
Lemma case_closure_exact this method body args s timeoutValue slowValue out s' :
  body = CaseSync this method \/ body = CaseDone this method ->
  get (st_heap s) method timeoutSymbol = Some timeoutValue ->
  get (st_heap s) method slowSymbol = Some slowValue ->
  call_closure E body args s = (out, s') ->
  exists o1 s1,
    forwards E this "timeout" timeoutValue s o1 s1
    /\ match o1 with
       | Throw e => out = Throw e /\ s' = s1
       | Normal _ =>
           exists o2 s2,
             forwards E this "slow" slowValue s1 o2 s2
             /\ match o2 with
                | Throw e => out = Throw e /\ s' = s2
                | Normal _ =>
                    calls_once E CaseBody method (st_instance s)
                               (closure_args body args) s2 out s'
                end
       end.
Proof.
  intros Hbody Ht Hs Hrun.
  assert (Hsteps : (applyTimes E method this;;
                    inst ← read_instance;
                    call E CaseBody method inst (closure_args body args)) s
                   = (out, s')).
  { destruct Hbody as [-> | ->]; exact Hrun. }
  clear Hrun. rewrite run_bind, applyTimes_steps in Hsteps.
  rewrite run_bind, (get_prop_some _ _ _ _ Ht) in Hsteps.
  rewrite run_bind, (get_prop_some _ _ _ _ Hs) in Hsteps.
  rewrite run_bind in Hsteps.
  destruct (forward_step E "timeout" timeoutValue this s) as [o1 s1] eqn:H1.
  pose proof (forward_step_exact _ _ _ _ _ _ H1) as F1.
  exists o1, s1. split; [exact F1|].
  destruct o1 as [[]|e]; [|injection Hsteps as <- <-; auto].
  rewrite run_bind in Hsteps.
  destruct (forward_step E "slow" slowValue this s1) as [o2 s2] eqn:H2.
  pose proof (forward_step_exact _ _ _ _ _ _ H2) as F2.
  exists o2, s2. split; [exact F2|].
  destruct o2 as [[]|e]; [|injection Hsteps as <- <-; auto].
  rewrite run_ret, run_bind in Hsteps. unfold read_instance in Hsteps.
  rewrite (forwards_instance _ _ _ _ _ _ F2), (forwards_instance _ _ _ _ _ _ F1)
    in Hsteps.
  apply call_exact. exact Hsteps.
Qed.

Lemma case_closure_split this method body args s out s' :
  body = CaseSync this method \/ body = CaseDone this method ->
  call_closure E body args s = (out, s') ->
  (exists e, applyTimes E method this s = (Throw e, s') /\ out = Throw e)
  \/ exists r s1,
       applyTimes E method this s = (Normal r, s1)
       /\ call E CaseBody method (st_instance s1) (closure_args body args) s1
          = (out, s').
Proof.
  intros [-> | ->] H; simpl in H;
    apply bind_inv in H as [(r & s1 & H1 & H)|(e & H1 & ->)]; eauto.
Qed.

End Running.

(** ** The calling convention of the four hooks *)



(** ** Timing tags *)

(** C10: when the runner calls a registered case, whatever receiver it binds
    for the call, the closure first deals with the timeout tag of the
    behavior, then with its slow tag, then calls the body.  A tag that is a
    number is forwarded by one call of the setter of that name ([timeout],
    resp. [slow]) with the tag value alone; a tag that is not a number causes
    no call and no error.  The setters are read from, and called on, the
    [this] of the describe callback, which the arrow functions capture,
    whatever the receiver the runner binds for the case. *)
Theorem timing_tags_go_to_the_describe_receiver
        E decoratorName target s0 out0 s0' e name body method
        receiver done s timeoutValue slowValue out s' :
  suite_result E decoratorName target s0 = (out0, s0') ->
  In (Case e name body) (new_events s0 s0') ->
  closure_method body = Some method ->
  get (st_heap s) method timeoutSymbol = Some timeoutValue ->
  get (st_heap s) method slowSymbol = Some slowValue ->
  runner_call_on E receiver body done s = (out, s') ->
  exists o1 s1,
    forwards E (suite_context E) "timeout" timeoutValue s o1 s1
    /\ match o1 with
       | Throw e' => out = Throw e' /\ s' = s1
       | Normal _ =>
           exists o2 s2,
             forwards E (suite_context E) "slow" slowValue s1 o2 s2
             /\ match o2 with
                | Throw e' => out = Throw e' /\ s' = s2
                | Normal _ =>
                    calls_once E CaseBody method (st_instance s)
                               (convention (closure_length body) done) s2 out s'
                end
       end.
Proof.
  intros Htrans Hin Hmethod Ht Hs Hrun.
  destruct (registered_case_inv _ _ _ _ _ _ _ _ _ Htrans Hin)
    as (prototype & key & method' & shouldSkip & shouldOnly & len & _ & _ & _ & Hc).
  assert (Hbody : body = CaseSync (suite_context E) method
                  \/ body = CaseDone (suite_context E) method).
  { destruct Hc as [[_ ->]|(_ & _ & ->)]; simpl in Hmethod;
      injection Hmethod as ->; auto. }
  unfold runner_call_on, runner_call in Hrun.
  assert (Hargs : closure_args body (if (0 <? closure_length body)%nat
                                     then [done] else [])
                  = convention (closure_length body) done)
    by (destruct Hbody as [-> | ->]; reflexivity).
  rewrite <- Hargs.
  exact (case_closure_exact E _ _ _ _ _ _ _ _ _ Hbody Ht Hs Hrun).
Qed.

(** ** The per-case instance *)

Section PerCase.

Variable E : engine.


Lemma afterEachFunction_cases prototype s c s' :
  afterEachFunction E prototype s = (Normal c, s') ->
  c = AfterEachDefault \/ c = AfterEachDone prototype \/ c = AfterEachSync prototype.
Proof.
  unfold afterEachFunction. intros H.
  apply bind_inv in H as [(a & s0 & _ & H)|(e & _ & [=])].
  destruct (truthy a); [|injection H as <- <-; auto].
  apply bind_inv in H as [(a' & s1 & _ & H)|(e & _ & [=])].
  apply bind_inv in H as [(len & s2 & _ & H)|(e & _ & [=])].
  rewrite run_bind in H. unfold read_heap in H.
  destruct (js_gt E (st_heap s2) len 0); injection H as <- <-; auto.
Qed.

Lemma teardown_inv prototype teardown args s out s' :
  teardown = AfterEachDefault \/ teardown = AfterEachDone prototype
  \/ teardown = AfterEachSync prototype ->
  call_closure E teardown args s = (out, s') ->
  st_instance s' = VUndefined
  /\ exists evs,
       st_trace s' = st_trace s ++ SetInstance VUndefined :: evs
       /\ (evs = [] \/ exists l a, evs = [Invoke AfterEachHook l (st_instance s) a]).
Proof.
  intros [-> | [-> | ->]] H; simpl in H.
  - injection H as <- <-. simpl. eauto.
  - apply after_each_inv in H.
    destruct (hook_call_inv _ _ _ _ _ _ _ _ _ H) as [Hi [[-> ->]|(l & Ht & _)]].
    + simpl. eauto.
    + split; [exact Hi|]. eexists. rewrite Ht. simpl. rewrite <- app_assoc.
      split; [reflexivity|]. right. eauto.
  - apply after_each_inv in H.
    destruct (hook_call_inv _ _ _ _ _ _ _ _ _ H) as [Hi [[-> ->]|(l & Ht & _)]].
    + simpl. eauto.
    + split; [exact Hi|]. eexists. rewrite Ht. simpl. rewrite <- app_assoc.
      split; [reflexivity|]. right. eauto.
Qed.



End PerCase.


Example Probe_translation :
  suite_result quiet (VBool false) (VObj Probe) (start Probe_store)
  = (Normal tt, Probe_translated).
Proof. vm_compute. reflexivity. Qed.

Example Probe_works_run :
  st_trace (snd (Probe_case (CaseSync (VObj handle) (VObj works))))
  = Probe_timeline works
      [Invoke Configure timeout_setter (VObj handle) [VNum 2000];
       Invoke Configure slow_setter (VObj handle) [VNum 100]] [].
Proof. vm_compute. reflexivity. Qed.

Example Probe_solo_run :
  st_trace (snd (Probe_case (CaseDone (VObj handle) (VObj solo))))
  = Probe_timeline solo [] [VStr "done"].
Proof. vm_compute. reflexivity. Qed.


(** When the constructor throws, the teardown still runs: the reference is
    cleared and the after hook is called, on what was stored before. *)
Example Probe_failed_setup_run :
  run_case unconstructible (BeforeEachSync (VObj Probe) (VObj Probe_prototype))
           (CaseSync (VObj handle) (VObj works))
           (AfterEachDone (VObj Probe_prototype)) (VStr "done") (start Probe_store)
  = (Throw (Thrown (VStr "no instance")),
     {| st_heap := Probe_store; st_instance := VUndefined;
        st_trace := [New (VObj Probe); SetInstance VUndefined;
                     Invoke AfterEachHook after_hook VUndefined [VStr "done"]] |}).
Proof. vm_compute. reflexivity. Qed.



Lemma skip_takes_precedence_witness :
  exists method shouldSkip shouldOnly,
    closure_method (CaseSync (VObj handle) (VObj skipped)) = Some method
    /\ get Probe_store method testNameSymbol = Some (VStr "skipped")
    /\ truthy (VStr "skipped") = true
    /\ get Probe_store method skipSymbol = Some shouldSkip
    /\ get Probe_store method onlySymbol = Some shouldOnly
    /\ (truthy shouldSkip = true -> skipFunction = skipFunction)
    /\ (truthy shouldSkip = false -> truthy shouldOnly = true ->
        skipFunction = onlyFunction)
    /\ (truthy shouldSkip = false -> truthy shouldOnly = false ->
        skipFunction = itFunction).
Proof.
  exact (skip_takes_precedence
           quiet (VBool false) (VObj Probe) (start Probe_store)
           (Normal tt) Probe_translated
           skipFunction (VStr "skipped") (CaseSync (VObj handle) (VObj skipped))
           ltac:(vm_compute; reflexivity)
           ltac:(vm_compute; tauto)).
Defined.


Lemma untagged_member_is_never_registered_witness :
  closure_method (CaseSync (VObj handle) (VObj works)) <> Some (VObj helper).
Proof.
  exact (untagged_member_is_never_registered
           quiet (VBool false) (VObj Probe) (start Probe_store)
           (Normal tt) Probe_translated (VObj helper)
           itFunction (VStr "works") (CaseSync (VObj handle) (VObj works))
           ltac:(vm_compute; reflexivity)
           ltac:(vm_compute; reflexivity)
           ltac:(vm_compute; tauto)).
Defined.

(** [works] carries a timeout of 2000 and a slow threshold of 100.  The
    runner calls its case on [case_context]; the two setters that are called
    are those of [handle], the receiver of the describe callback, and they
    are called on [handle]. *)
Lemma timing_tags_go_to_the_describe_receiver_witness :
  st_trace (snd (runner_call_on quiet (VObj case_context)
                                (CaseSync (VObj handle) (VObj works)) (VStr "done")
                                (start Runner_store)))
  = [Invoke Configure timeout_setter (VObj handle) [VNum 2000];
     Invoke Configure slow_setter (VObj handle) [VNum 100];
     Invoke CaseBody works VUndefined []].
Proof.
  destruct (runner_call_on quiet (VObj case_context)
                           (CaseSync (VObj handle) (VObj works)) (VStr "done")
                           (start Runner_store)) as [out s'] eqn:Hrun.
  cbn [snd].
  destruct (timing_tags_go_to_the_describe_receiver
              quiet (VBool false) (VObj Probe) (start Runner_store)
              (fst (suite_result quiet (VBool false) (VObj Probe) (start Runner_store)))
              (snd (suite_result quiet (VBool false) (VObj Probe) (start Runner_store)))
              itFunction (VStr "works") (CaseSync (VObj handle) (VObj works))
              (VObj works) (VObj case_context) (VStr "done") (start Runner_store)
              (VNum 2000) (VNum 100) out s'
              ltac:(vm_compute; reflexivity) ltac:(vm_compute; tauto) eq_refl
              ltac:(vm_compute; reflexivity) ltac:(vm_compute; reflexivity) Hrun)
    as (o1 & s1 & F1 & H).
  vm_compute in F1. destruct F1 as (o & (Hinv & Hi1 & Ht1) & ->).
  injection Hinv as <- Hh1. cbv beta iota in H.
  destruct H as (o2 & s2 & F2 & H).
  destruct s1 as [h1 i1 t1]. cbn [st_heap st_instance st_trace] in *. subst h1 i1 t1.
  vm_compute in F2. destruct F2 as (o & (Hinv & Hi2 & Ht2) & ->).
  injection Hinv as <- Hh2. cbv beta iota in H.
  destruct s2 as [h2 i2 t2]. cbn [st_heap st_instance st_trace] in *. subst h2 i2 t2.
  vm_compute in H. destruct H as (_ & _ & Ht). exact Ht.
Defined.

(** ** The shape of a translation *)

Lemma truthy_readable h v k : truthy v = true -> exists x, get h v k = Some x.
Proof. destruct v; try discriminate; intros _; unfold get; simpl; eauto. Qed.

Section Shape.

Variable E : engine.

(** The pattern of lines 66-76, 77-87, 92-104 and 110-124: read the hook,
    and choose by its truthiness, then by its declared parameter count. *)
Lemma hook_choice_inv {A} (on_done on_sync otherwise : M A) name owner s out s' :
  (b ← get_prop owner name;
   if truthy b then
     b' ← get_prop owner name;
     len ← get_prop b' "length";
     h ← read_heap;
     if js_gt E h len 0 then on_done else on_sync
   else otherwise) s = (out, s') ->
  get (st_heap s) owner name = None /\ out = Throw TypeError /\ s' = s
  \/ exists v, get (st_heap s) owner name = Some v
               /\ (truthy v = false /\ otherwise s = (out, s')
                   \/ truthy v = true
                      /\ (on_done s = (out, s') \/ on_sync s = (out, s'))).
Proof.
  rewrite run_bind. unfold get_prop at 1.
  destruct (get (st_heap s) owner name) as [v|] eqn:Hv;
    [|intros H; injection H as <- <-; auto].
  destruct (truthy v) eqn:Htruthy; [|intros H; right; exists v; auto].
  rewrite run_bind, (get_prop_some _ _ _ _ Hv).
  destruct (truthy_readable (st_heap s) v "length" Htruthy) as (len & Hlen).
  rewrite run_bind, (get_prop_some _ _ _ _ Hlen).
  rewrite run_bind. unfold read_heap.
  intros H. right. exists v. split; [reflexivity|]. right. split; [exact Htruthy|].
  destruct (js_gt E (st_heap s) len 0); auto.
Qed.

Lemma static_before_inv target s out s' :
  static_before E target s = (out, s') ->
  get (st_heap s) target "before" = None /\ out = Throw TypeError /\ s' = s
  \/ out = Normal tt
     /\ exists evs, s' = {| st_heap := st_heap s; st_instance := st_instance s;
                            st_trace := st_trace s ++ evs |}
                    /\ static_registration (st_heap s) target "before"
                         (BeforeAll (StaticBeforeDone target))
                         (BeforeAll (StaticBeforeSync target)) evs.
Proof.
  intros H. apply hook_choice_inv in H as [H|(v & Hv & [(Hf & H)|(Ht & H)])];
    [left; exact H | right | right].
  - injection H as <- <-. split; [reflexivity|].
    exists []. rewrite app_nil_r. destruct s. split; [reflexivity|].
    exists v. auto.
  - destruct H as [H|H]; injection H as <- <-; (split; [reflexivity|]);
      eexists; (split; [reflexivity|]); exists v; auto.
Qed.

Lemma static_after_inv target s out s' :
  static_after E target s = (out, s') ->
  get (st_heap s) target "after" = None /\ out = Throw TypeError /\ s' = s
  \/ out = Normal tt
     /\ exists evs, s' = {| st_heap := st_heap s; st_instance := st_instance s;
                            st_trace := st_trace s ++ evs |}
                    /\ static_registration (st_heap s) target "after"
                         (AfterAll (StaticAfterDone target))
                         (AfterAll (StaticAfterSync target)) evs.
Proof.
  intros H. apply hook_choice_inv in H as [H|(v & Hv & [(Hf & H)|(Ht & H)])];
    [left; exact H | right | right].
  - injection H as <- <-. split; [reflexivity|].
    exists []. rewrite app_nil_r. destruct s. split; [reflexivity|].
    exists v. auto.
  - destruct H as [H|H]; injection H as <- <-; (split; [reflexivity|]);
      eexists; (split; [reflexivity|]); exists v; auto.
Qed.

Lemma beforeEachFunction_inv target prototype s out s' :
  beforeEachFunction E target prototype s = (out, s') ->
  s' = s
  /\ (get (st_heap s) prototype "before" = None /\ out = Throw TypeError
      \/ exists c, out = Normal c /\ is_setup target prototype c).
Proof.
  intros H. unfold beforeEachFunction in H. unfold is_setup.
  apply hook_choice_inv in H as [(Hn & -> & ->)|(v & Hv & [(Hf & H)|(Ht & [H|H])])];
    [auto | | | ]; injection H as <- <-;
    (split; [reflexivity|]); right; eexists; (split; [reflexivity|]); auto.
Qed.

Lemma afterEachFunction_inv prototype s out s' :
  afterEachFunction E prototype s = (out, s') ->
  s' = s
  /\ (get (st_heap s) prototype "after" = None /\ out = Throw TypeError
      \/ exists c, out = Normal c /\ is_teardown prototype c).
Proof.
  intros H. unfold afterEachFunction in H. unfold is_teardown.
  apply hook_choice_inv in H as [(Hn & -> & ->)|(v & Hv & [(Hf & H)|(Ht & [H|H])])];
    [auto | | | ]; injection H as <- <-;
    (split; [reflexivity|]); right; eexists; (split; [reflexivity|]); auto.
Qed.

(** One turn of the loop registers one case or nothing. *)
Lemma loop_body_inv prototype this key s out s' :
  loop_body E prototype this key s = (out, s') ->
  s' = s
  \/ exists ev, out = Normal tt /\ s' = record s ev
                /\ registered E (st_heap s) prototype this ev.
Proof.
  unfold loop_body. rewrite run_bind. unfold read_heap.
  destruct (hasOwnProperty (st_heap s) prototype key) eqn:Hown;
    [|intros H; injection H as <- <-; auto].
  destruct (instanceof_Function (st_heap s) prototype) eqn:Hgate;
    [|intros H; injection H as <- <-; auto].
  change (negb true || negb true) with false. cbv iota.
  rewrite run_bind. unfold get_prop at 1.
  destruct (get (st_heap s) prototype key) as [method|] eqn:Hmethod;
    [|intros H; injection H as <- <-; auto].
  rewrite run_bind. unfold get_prop at 1.
  destruct (get (st_heap s) method testNameSymbol) as [testName|] eqn:Hname;
    [|intros H; injection H as <- <-; auto].
  rewrite run_bind. unfold get_prop at 1.
  destruct (get (st_heap s) method skipSymbol) as [shouldSkip|] eqn:Hskip;
    [|intros H; injection H as <- <-; auto].
  rewrite run_bind. unfold get_prop at 1.
  destruct (get (st_heap s) method onlySymbol) as [shouldOnly|] eqn:Honly;
    [|intros H; injection H as <- <-; auto].
  destruct (truthy testName) eqn:Hnamed;
    [|intros H; injection H as <- <-; auto].
  rewrite run_bind. unfold get_prop at 1.
  destruct (get (st_heap s) method "length") as [len|] eqn:Hlen;
    [|intros H; injection H as <- <-; auto].
  assert (Hm : tagged_member (st_heap s) prototype key method testName
                             shouldSkip shouldOnly len) by (constructor; assumption).
  destruct (js_eq E (st_heap s) len 0) eqn:H0.
  - intros H. injection H as <- <-. right. eexists. split; [reflexivity|].
    split; [reflexivity|]. eapply registered_sync; eassumption.
  - rewrite run_bind, (get_prop_some _ _ _ _ Hlen).
    destruct (js_eq E (st_heap s) len 1) eqn:H1;
      intros H; injection H as <- <-; [|auto].
    right. eexists. split; [reflexivity|].
    split; [reflexivity|]. eapply registered_done; eassumption.
Qed.

Lemma loop_inv prototype this keys s out s' :
  for_each keys (loop_body E prototype this) s = (out, s') ->
  exists cases,
    s' = {| st_heap := st_heap s; st_instance := st_instance s;
            st_trace := st_trace s ++ cases |}
    /\ Forall (registered E (st_heap s) prototype this) cases
    /\ (length cases <= length keys)%nat.
Proof.
  revert s. induction keys as [|key keys IH]; intros s H; simpl in H.
  - injection H as <- <-. exists []. rewrite app_nil_r. destruct s.
    repeat split; auto.
  - apply bind_inv in H as [([] & s1 & H1 & H)|(e & H1 & ->)].
    + apply loop_body_inv in H1 as [->|(ev & _ & -> & Hev)].
      * destruct (IH _ H) as (cases & -> & Hall & Hlen).
        exists cases. simpl. repeat split; auto.
      * destruct (IH _ H) as (cases & -> & Hall & Hlen).
        exists (ev :: cases). simpl. rewrite <- app_assoc.
        repeat split; [constructor; assumption | lia].
    + apply loop_body_inv in H1 as [->|(ev & [=] & _)].
      exists []. rewrite app_nil_r. destruct s. simpl. repeat split; auto. lia.
Qed.

Lemma suite_callback_shape target this s s' :
  suite_callback E target this s = (Normal tt, s') ->
  exists prototype before_all after_all b a cases,
    get (st_heap s) target "prototype" = Some prototype
    /\ s' = {| st_heap := st_heap s; st_instance := VUndefined;
               st_trace := st_trace s ++ before_all ++ after_all
                           ++ BeforeEach b :: AfterEach a :: cases |}
    /\ static_registration (st_heap s) target "before"
         (BeforeAll (StaticBeforeDone target)) (BeforeAll (StaticBeforeSync target))
         before_all
    /\ static_registration (st_heap s) target "after"
         (AfterAll (StaticAfterDone target)) (AfterAll (StaticAfterSync target))
         after_all
    /\ is_setup target prototype b /\ is_teardown prototype a
    /\ Forall (registered E (st_heap s) prototype this) cases
    /\ (length cases <= length (for_in_keys (st_heap s) prototype))%nat.
Proof.
  unfold suite_callback. intros H.
  apply bind_inv in H as [([] & s0 & H0 & H)|(e & _ & [=])].
  injection H0 as <-.
  apply bind_inv in H as [([] & s1 & H1 & H)|(e & _ & [=])].
  apply static_before_inv in H1 as [(_ & [=] & _)|(_ & before_all & -> & Hbefore)].
  apply bind_inv in H as [([] & s2 & H2 & H)|(e & _ & [=])].
  apply static_after_inv in H2 as [(_ & [=] & _)|(_ & after_all & -> & Hafter)].
  apply bind_inv in H as [(prototype & s3 & H3 & H)|(e & _ & [=])].
  apply get_prop_inv in H3 as [-> [[[=] _]|(x & [= <-] & Hproto)]].
  apply bind_inv in H as [(b & s4 & H4 & H)|(e & _ & [=])].
  apply beforeEachFunction_inv in H4 as [-> [[_ [=]]|(c & [= <-] & Hb)]].
  apply bind_inv in H as [([] & s5 & H5 & H)|(e & _ & [=])].
  injection H5 as <-.
  apply bind_inv in H as [(a & s6 & H6 & H)|(e & _ & [=])].
  apply afterEachFunction_inv in H6 as [-> [[_ [=]]|(c & [= <-] & Ha)]].
  apply bind_inv in H as [([] & s7 & H7 & H)|(e & _ & [=])].
  injection H7 as <-.
  unfold for_in in H. simpl st_heap in H.
  apply loop_inv in H as (cases & -> & Hcases & Hlen).
  simpl in *.
  exists prototype, before_all, after_all, b, a, cases.
  repeat split; try assumption.
  rewrite <- !app_assoc. reflexivity.
Qed.

Lemma static_before_registers h target :
  emits h is_registration (static_before E target).
Proof.
  intros s out s' Hs H.
  apply static_before_inv in H as [(_ & _ & ->)|(_ & evs & -> & v & _ & Hevs)].
  - split; [exact Hs|]. exists []. rewrite app_nil_r. auto.
  - split; [exact Hs|]. exists evs. split; [reflexivity|].
    destruct Hevs as [[_ ->]|[_ [-> | ->]]]; repeat constructor.
Qed.

Lemma static_after_registers h target :
  emits h is_registration (static_after E target).
Proof.
  intros s out s' Hs H.
  apply static_after_inv in H as [(_ & _ & ->)|(_ & evs & -> & v & _ & Hevs)].
  - split; [exact Hs|]. exists []. rewrite app_nil_r. auto.
  - split; [exact Hs|]. exists evs. split; [reflexivity|].
    destruct Hevs as [[_ ->]|[_ [-> | ->]]]; repeat constructor.
Qed.

Lemma suite_callback_registers h target this :
  emits h is_registration (suite_callback E target this).
Proof.
  unfold suite_callback.
  apply emits_bind.
  { intros s out s' Hs H. injection H as <- <-. simpl.
    split; [exact Hs|]. exists []. rewrite app_nil_r. auto. }
  intros _. apply emits_bind; [apply static_before_registers|].
  intros _. apply emits_bind; [apply static_after_registers|].
  intros _. apply emits_get; intros prototype _.
  apply emits_bind.
  { eapply emits_mono; [|apply beforeEachFunction_emits]. intros ev []. }
  intros b. apply emits_bind; [apply emits_emit; exact I|].
  intros _. apply emits_bind.
  { eapply emits_mono; [|apply afterEachFunction_emits]. intros ev []. }
  intros a. apply emits_bind; [apply emits_emit; exact I|].
  intros _. apply emits_for_in. intros key.
  eapply emits_mono; [|apply loop_body_emits].
  intros ev Hev. destruct Hev; exact I.
Qed.

Lemma suite_result_registers h decoratorName target :
  emits h is_registration (suite_result E decoratorName target).
Proof.
  unfold suite_result, describeFunction.
  apply emits_bind.
  { destruct (truthy decoratorName); [apply emits_ret|].
    intros s out s' Hs H. apply get_prop_inv in H as [-> _].
    split; [exact Hs|]. exists []. rewrite app_nil_r. auto. }
  intros targetName. apply emits_bind; [apply emits_emit; exact I|].
  intros _. apply suite_callback_registers.
Qed.

End Shape.

(** On a suite whose prototype resolves [hasOwnProperty] to the built-in, a
    translation, however it ends, leaves the store as it found it and only
    hands closures to the runner: it calls no hook, no constructor, no member
    and no setter, and does not write [instance]. *)
Theorem translation_only_registers E decoratorName target s :
  (forall prototype, get (st_heap s) target "prototype" = Some prototype ->
                     builtin_guard (st_heap s) prototype) ->
  let s' := snd (suite_result E decoratorName target s) in
  st_heap s' = st_heap s
  /\ st_trace s' = st_trace s ++ new_events s s'
  /\ Forall is_registration (new_events s s').
Proof.
  intros _ s'.
  destruct (suite_result E decoratorName target s) as [out s1] eqn:Hrun.
  subst s'. simpl snd.
  destruct (suite_result_registers E (st_heap s) decoratorName target
                                    s out s1 eq_refl Hrun) as (Hh & evs & Ht & Hall).
  rewrite (new_events_app _ _ _ Ht). auto.
Qed.

Lemma translation_only_registers_witness :
  st_heap (snd (suite_result quiet (VBool false) (VObj Probe) (start Probe_store)))
  = Probe_store
  /\ Forall is_registration
            (new_events (start Probe_store)
               (snd (suite_result quiet (VBool false) (VObj Probe) (start Probe_store)))).
Proof.
  destruct (translation_only_registers quiet (VBool false) (VObj Probe)
                                       (start Probe_store)) as (Hh & _ & Hall).
  - intros prototype Hp. vm_compute in Hp. injection Hp as <-.
    vm_compute. reflexivity.
  - split; [exact Hh | exact Hall].
Defined.

(** A translation that completes registers, in this order: the suite under
    its name, the static before hook if there is one, the static after hook
    if there is one, exactly one per-case setup, exactly one per-case
    teardown, and then the cases, at most one for each key the loop visits;
    it leaves [instance] empty. *)
Theorem translation_shape E decoratorName target s s' :
  suite_result E decoratorName target s = (Normal tt, s') ->
  exists name prototype before_all after_all b a cases,
    new_events s s'
    = Describe name :: before_all ++ after_all
      ++ BeforeEach b :: AfterEach a :: cases
    /\ get (st_heap s) target "prototype" = Some prototype
    /\ static_registration (st_heap s) target "before"
         (BeforeAll (StaticBeforeDone target)) (BeforeAll (StaticBeforeSync target))
         before_all
    /\ static_registration (st_heap s) target "after"
         (AfterAll (StaticAfterDone target)) (AfterAll (StaticAfterSync target))
         after_all
    /\ is_setup target prototype b /\ is_teardown prototype a
    /\ Forall (registered E (st_heap s) prototype (suite_context E)) cases
    /\ (length cases <= length (for_in_keys (st_heap s) prototype))%nat
    /\ st_instance s' = VUndefined.
Proof.
  unfold suite_result, describeFunction. intros H.
  apply bind_inv in H as [(name & s0 & H0 & H)|(e & _ & [=])].
  assert (s0 = s) as ->.
  { destruct (truthy decoratorName); [injection H0 as _ <-; reflexivity|].
    apply get_prop_inv in H0 as [-> _]. reflexivity. }
  apply bind_inv in H as [([] & s1 & H1 & H)|(e & _ & [=])].
  injection H1 as <-.
  apply suite_callback_shape in H
    as (prototype & before_all & after_all & b & a & cases
        & Hproto & -> & Hbefore & Hafter & Hb & Ha & Hcases & Hlen).
  simpl in *.
  exists name, prototype, before_all, after_all, b, a, cases.
  split; [apply new_events_app; simpl; rewrite <- app_assoc; reflexivity|].
  repeat split; assumption.
Qed.

(** The name the runner receives: the explicit name when there is one,
    whatever the target; else the [name] of the class.  It is received even
    if the callback fails afterwards. *)
Theorem suite_name_received E s :
  (forall n target, n <> "" ->
     fst (suite E (VStr n) s) = Normal (Decorator (VStr n))
     /\ exists rest,
          new_events s (snd (suite_result E (VStr n) target s))
          = Describe (VStr n) :: rest)
  /\ (forall l o fn, st_heap s !! l = Some o -> o_func o = Some fn ->
        exists rest,
          new_events s (snd (suite E (VObj l) s))
          = Describe (VStr (f_name fn)) :: rest).
Proof.
  assert (Hdescribe : forall decoratorName target name,
            (if truthy decoratorName then mret decoratorName
             else get_prop target "name") s = (Normal name, s) ->
            exists rest,
              new_events s (snd (suite_result E decoratorName target s))
              = Describe name :: rest).
  { intros d target name Hname. unfold suite_result, describeFunction.
    rewrite run_bind, Hname, run_bind. unfold emit at 1. cbv beta iota.
    destruct (suite_callback E target (suite_context E)
                {| st_heap := st_heap s; st_instance := st_instance s;
                   st_trace := st_trace s ++ [Describe name] |}) as [out s1] eqn:Hrun.
    destruct (suite_callback_registers E (st_heap s) target (suite_context E)
                (record s (Describe name)) out s1 eq_refl Hrun) as (_ & evs & Ht & _).
    exists evs. simpl snd. destruct out; simpl snd;
      apply new_events_app; rewrite Ht; simpl; rewrite <- app_assoc; reflexivity. }
  split.
  - intros n target Hn. split; [rewrite suite_named by exact Hn; reflexivity|].
    apply Hdescribe. simpl.
    destruct (String.eqb_spec n ""); [contradiction | reflexivity].
  - intros l o fn Hl Hfn.
    assert (Hname : get (st_heap s) (VObj l) "name" = Some (VStr (f_name fn))).
    { unfold get. simpl. rewrite Hl. simpl.
      assert (Hown : own_property o "name" = Some (hidden (VStr (f_name fn)))).
      { unfold own_property. rewrite Hfn. reflexivity. }
      destruct (size (st_heap s)); simpl; rewrite Hown; reflexivity. }
    destruct (Hdescribe (VBool false) (VObj l) (VStr (f_name fn))) as (rest & Hrest).
    { simpl. apply get_prop_some. exact Hname. }
    exists rest. rewrite suite_direct by reflexivity. rewrite run_bind.
    destruct (suite_result E (VBool false) (VObj l) s) as [[[]|e] s1]; exact Hrest.
Qed.

(** ** Cases: which members, and how their bodies are called *)

(** On a suite whose prototype resolves [hasOwnProperty] to the built-in,
    only own members are registered: a function that no own key of the
    prototype holds is the body of no case, even if the loop visits it
    through an inherited key and it is tagged. *)
Theorem inherited_member_is_not_registered
        E decoratorName target s out s' prototype method e name c :
  get (st_heap s) target "prototype" = Some prototype ->
  builtin_guard (st_heap s) prototype ->
  (forall key, hasOwnProperty (st_heap s) prototype key = true ->
               get (st_heap s) prototype key <> Some method) ->
  suite_result E decoratorName target s = (out, s') ->
  In (Case e name c) (new_events s s') ->
  closure_method c <> Some method.
Proof.
  intros Hproto _ Hown Hrun Hin Hc.
  destruct (registered_case_inv _ _ _ _ _ _ _ _ _ Hrun Hin)
    as (prototype' & key & method' & shouldSkip & shouldOnly & len
        & Hproto' & Hm & _ & Hcase).
  assert (prototype' = prototype) as -> by congruence.
  assert (method' = method) as ->.
  { destruct Hcase as [[_ ->]|(_ & _ & ->)]; simpl in Hc; congruence. }
  destruct Hm. eapply Hown; eassumption.
Qed.

Lemma hasOwnProperty_object h l o k :
  h !! l = Some o ->
  hasOwnProperty h (VObj l) k = bool_decide (is_Some (own_property o k)).
Proof. intros Hl. unfold hasOwnProperty, to_object. rewrite Hl. reflexivity. Qed.

(** [Child] inherits [works], [skipped] and [solo]; the loop visits their
    keys, and registers [own] alone. *)
Example Child_translation :
  for_in_keys Child_store (VObj Child_prototype)
  = ["own"; "before"; "after"; "works"; "helper"; "wide"; "skipped"; "solo"]
  /\ new_events (start Child_store)
       (snd (suite_result quiet (VBool false) (VObj Child) (start Child_store)))
     = [Describe (VStr "Child");
        BeforeEach (BeforeEachSync (VObj Child) (VObj Child_prototype));
        AfterEach (AfterEachDone (VObj Child_prototype));
        Case itFunction (VStr "own") (CaseSync (VObj handle) (VObj own_member))].
Proof. vm_compute. split; reflexivity. Qed.

(** A registered case whose body is a function declares a parameter exactly
    when the body does.  When the runner calls it, [applyTimes] runs first,
    on the behavior and the [this] of the describe callback; if that throws,
    the case throws the same and the body is not called; otherwise the body
    is called exactly once, on the stored instance, with no argument if it
    declares none and with the runner's completion callback alone if it
    declares one, and what the body returns or throws is what the case
    returns or throws. *)
Theorem case_calling_convention E decoratorName target s out s' e name c m o fn :
  suite_result E decoratorName target s = (out, s') ->
  In (Case e name c) (new_events s s') ->
  closure_method c = Some (VObj m) ->
  st_heap s !! m = Some o -> o_func o = Some fn ->
  (f_length fn = 0 \/ f_length fn = 1)%nat
  /\ closure_length c = f_length fn
  /\ forall done s1 out1 s2,
       runner_call E c done s1 = (out1, s2) ->
       exists oa sa,
         applyTimes E (VObj m) (suite_context E) s1 = (oa, sa)
         /\ match oa with
            | Throw e' => out1 = Throw e' /\ s2 = sa
            | Normal _ =>
                calls_once E CaseBody (VObj m) (st_instance s1)
                           (convention (f_length fn) done) sa out1 s2
            end.
Proof.
  intros Hrun Hin Hc Hm Hfn.
  destruct (registered_case_inv _ _ _ _ _ _ _ _ _ Hrun Hin)
    as (prototype & key & method & shouldSkip & shouldOnly & len
        & _ & Htm & _ & Hcase).
  destruct Htm.
  assert (method = VObj m) as ->.
  { destruct Hcase as [[_ ->]|(_ & _ & ->)]; simpl in Hc; congruence. }
  pose proof (get_function_length _ _ _ _ Hm Hfn) as Hlen.
  assert (len = VNum (Z.of_nat (f_length fn))) as -> by congruence.
  rewrite !js_eq_number in Hcase.
  assert (Hkind : (f_length fn = 0%nat /\ c = CaseSync (suite_context E) (VObj m))
                  \/ (f_length fn = 1%nat /\ c = CaseDone (suite_context E) (VObj m))).
  { destruct Hcase as [[H0 ->]|(_ & H1 & ->)]; [left|right]; split; trivial.
    - apply Z.eqb_eq in H0. lia.
    - apply Z.eqb_eq in H1. lia. }
  split; [tauto|].
  split; [destruct Hkind as [[-> ->]|[-> ->]]; reflexivity|].
  intros done s1 out1 s2 Hcall. unfold runner_call in Hcall.
  assert (Hbody : c = CaseSync (suite_context E) (VObj m)
                  \/ c = CaseDone (suite_context E) (VObj m)) by tauto.
  assert (Hargs : closure_args c (if (0 <? closure_length c)%nat then [done] else [])
                  = convention (f_length fn) done)
    by (destruct Hkind as [[-> ->]|[-> ->]]; reflexivity).
  destruct (case_closure_split E _ _ _ _ _ _ _ Hbody Hcall)
    as [(e' & Happly & ->)|(r & s1' & Happly & Hbodycall)].
  - exists (Throw e'), s2. auto.
  - exists (Normal r), s1'. split; [exact Happly|].
    destruct (applyTimes_events E _ _ _ _ _ Happly) as (Hi & _).
    rewrite Hargs, Hi in Hbodycall. apply call_exact. exact Hbodycall.
Qed.

(** [solo] has one parameter and a timeout tag that is not a number: its
    case calls nothing but [solo], on the stored instance, with the
    completion callback. *)
Lemma case_calling_convention_witness :
  st_trace (snd (runner_call quiet (CaseDone (VObj handle) (VObj solo)) (VStr "done")
                   {| st_heap := Probe_store; st_instance := VObj works;
                      st_trace := [] |}))
  = [Invoke CaseBody solo (VObj works) [VStr "done"]].
Proof.
  destruct (runner_call quiet (CaseDone (VObj handle) (VObj solo)) (VStr "done")
              {| st_heap := Probe_store; st_instance := VObj works; st_trace := [] |})
    as [out1 s2] eqn:Hcall.
  cbn [snd].
  destruct (case_calling_convention
              quiet (VBool false) (VObj Probe) (start Probe_store)
              (Normal tt) Probe_translated
              onlyFunction (VStr "solo") (CaseDone (VObj handle) (VObj solo))
              solo (function 1 "" [("__mts_test", visible (VStr "solo"));
                                   ("__mts_only", visible (VBool true));
                                   ("__mts_timout", visible (VStr "soon"))])
              {| f_length := 1; f_name := "" |}
              ltac:(vm_compute; reflexivity) ltac:(vm_compute; tauto)
              eq_refl ltac:(vm_compute; reflexivity) eq_refl)
    as (_ & _ & Hrun).
  destruct (Hrun _ _ _ _ Hcall) as (oa & sa & Happly & Hbody).
  vm_compute in Happly. injection Happly as <- <-.
  vm_compute in Hbody. destruct Hbody as (_ & _ & Ht). exact Ht.
Defined.

Lemma inherited_member_is_not_registered_witness :
  closure_method (CaseSync (VObj handle) (VObj own_member)) <> Some (VObj works).
Proof.
  apply (inherited_member_is_not_registered
           quiet (VBool false) (VObj Child) (start Child_store)
           (fst (suite_result quiet (VBool false) (VObj Child) (start Child_store)))
           (snd (suite_result quiet (VBool false) (VObj Child) (start Child_store)))
           (VObj Child_prototype) (VObj works)
           itFunction (VStr "own") (CaseSync (VObj handle) (VObj own_member))).
  - vm_compute. reflexivity.
  - vm_compute. reflexivity.
  - intros key Hown Hget.
    destruct (decide (key = "constructor")) as [Hk|Hc];
      [rewrite Hk in Hget; vm_compute in Hget; discriminate|].
    destruct (decide (key = "own")) as [Hk|Ho];
      [rewrite Hk in Hget; vm_compute in Hget; discriminate|].
    apply String.eqb_neq in Hc, Ho.
    assert (Hobj : Child_store !! Child_prototype
                   = Some (plain Probe_prototype
                             [("constructor", hidden (VObj Child));
                              ("own", visible (VObj own_member))]))
      by (vm_compute; reflexivity).
    rewrite (hasOwnProperty_object _ _ _ _ Hobj) in Hown.
    change (own_property (plain Probe_prototype
                            [("constructor", hidden (VObj Child));
                             ("own", visible (VObj own_member))]) key)
      with (if String.eqb key "constructor" then Some (hidden (VObj Child))
            else if String.eqb key "own" then Some (visible (VObj own_member))
            else None) in Hown.
    rewrite Hc, Ho in Hown. apply bool_decide_eq_true in Hown as [x Hx].
    discriminate Hx.
  - vm_compute. reflexivity.
  - vm_compute. tauto.
Defined.

(** A loop that completes has registered each member it was to register. *)
Lemma loop_complete E prototype this keys s s' key method testName shouldSkip shouldOnly len :
  for_each keys (loop_body E prototype this) s = (Normal tt, s') ->
  In key keys ->
  tagged_member (st_heap s) prototype key method testName shouldSkip shouldOnly len ->
  (js_eq E (st_heap s) len 0 = true ->
   In (Case (testFunc shouldSkip shouldOnly) testName (CaseSync this method))
      (new_events s s'))
  /\ (js_eq E (st_heap s) len 0 = false -> js_eq E (st_heap s) len 1 = true ->
      In (Case (testFunc shouldSkip shouldOnly) testName (CaseDone this method))
         (new_events s s')).
Proof.
  revert s. induction keys as [|k keys IH]; intros s Hrun Hin Hm; [destruct Hin|].
  simpl in Hrun.
  apply bind_inv in Hrun as [([] & s1 & H1 & Hrest)|(e & _ & [=])].
  pose proof (loop_inv E _ _ _ _ _ _ Hrest) as (cases & Hs' & _ & _).
  assert (Hgrow : exists evs1, st_heap s1 = st_heap s /\ st_trace s1 = st_trace s ++ evs1).
  { apply loop_body_inv in H1 as [->|(ev & _ & -> & _)].
    - exists []. rewrite app_nil_r. auto.
    - exists [ev]. auto. }
  destruct Hgrow as (evs1 & Hheap & Htrace).
  assert (Hnew : new_events s s' = evs1 ++ cases).
  { apply new_events_app. rewrite Hs'. simpl. rewrite Htrace, app_assoc. reflexivity. }
  assert (Hnew1 : new_events s1 s' = cases).
  { apply new_events_app. rewrite Hs'. reflexivity. }
  destruct Hin as [->|Hin].
  - destruct (loop_body_registers E prototype this key s _ _ _ _ _ Hm) as [Hsync Hdone].
    split.
    + intros H0. rewrite (Hsync H0) in H1. injection H1 as <-.
      simpl in Htrace. apply app_inv_head in Htrace. subst evs1.
      rewrite Hnew. left. reflexivity.
    + intros H0 H1'. rewrite (Hdone H0 H1') in H1. injection H1 as <-.
      simpl in Htrace. apply app_inv_head in Htrace. subst evs1.
      rewrite Hnew. left. reflexivity.
  - rewrite <- Hheap in Hm. destruct (IH s1 Hrest Hin Hm) as [Hsync Hdone].
    rewrite Hheap in Hsync, Hdone. rewrite Hnew1 in Hsync, Hdone. rewrite Hnew.
    split; intros; apply in_or_app; right; auto.
Qed.

(** On a suite whose prototype resolves [hasOwnProperty] to the built-in and
    is an instance of [Function], a translation that completes registers
    every member the loop visits that is own, tagged with a truthy name and
    of no or one parameter, under that name and through the entry point its
    flags select. *)
Theorem tagged_members_are_registered
        E decoratorName target s s' prototype key method testName shouldSkip shouldOnly len :
  suite_result E decoratorName target s = (Normal tt, s') ->
  get (st_heap s) target "prototype" = Some prototype ->
  builtin_guard (st_heap s) prototype ->
  In key (for_in_keys (st_heap s) prototype) ->
  tagged_member (st_heap s) prototype key method testName shouldSkip shouldOnly len ->
  js_eq E (st_heap s) len 0 = true \/ js_eq E (st_heap s) len 1 = true ->
  exists c,
    In (Case (testFunc shouldSkip shouldOnly) testName c) (new_events s s')
    /\ closure_method c = Some method.
Proof.
  unfold suite_result, describeFunction. intros H Hproto _ Hkey Hm Harity.
  apply bind_inv in H as [(name & s0 & H0 & H)|(e & _ & [=])].
  assert (s0 = s) as ->.
  { destruct (truthy decoratorName); [injection H0 as _ <-; reflexivity|].
    apply get_prop_inv in H0 as [-> _]. reflexivity. }
  apply bind_inv in H as [([] & s1 & H1 & H)|(e & _ & [=])].
  injection H1 as <-.
  unfold suite_callback in H.
  apply bind_inv in H as [([] & s2 & H2 & H)|(e & _ & [=])]. injection H2 as <-.
  apply bind_inv in H as [([] & s3 & H3 & H)|(e & _ & [=])].
  apply static_before_inv in H3 as [(_ & [=] & _)|(_ & before_all & -> & _)].
  apply bind_inv in H as [([] & s4 & H4 & H)|(e & _ & [=])].
  apply static_after_inv in H4 as [(_ & [=] & _)|(_ & after_all & -> & _)].
  apply bind_inv in H as [(prototype' & s5 & H5 & H)|(e & _ & [=])].
  apply get_prop_inv in H5 as [-> [[[=] _]|(x & [= <-] & Hproto')]].
  simpl in Hproto'. assert (prototype' = prototype) as -> by congruence.
  apply bind_inv in H as [(b & s6 & H6 & H)|(e & _ & [=])].
  apply beforeEachFunction_inv in H6 as [-> _].
  apply bind_inv in H as [([] & s7 & H7 & H)|(e & _ & [=])]. injection H7 as <-.
  apply bind_inv in H as [(a & s8 & H8 & H)|(e & _ & [=])].
  apply afterEachFunction_inv in H8 as [-> _].
  apply bind_inv in H as [([] & s9 & H9 & H)|(e & _ & [=])]. injection H9 as <-.
  unfold for_in in H. simpl st_heap in H.
  match type of H with for_each _ _ ?sl = _ => set (s_loop := sl) in * end.
  pose proof (loop_inv E _ _ _ _ _ _ H) as (cases & Hs' & _ & _).
  destruct (loop_complete E _ _ _ _ _ key method testName shouldSkip shouldOnly len
                          H Hkey Hm) as [Hsync Hdone].
  assert (Hpre : exists pre, st_trace s_loop = st_trace s ++ pre).
  { exists ([Describe name] ++ before_all ++ after_all
            ++ [BeforeEach b] ++ [AfterEach a]).
    subst s_loop. simpl. rewrite <- !app_assoc. reflexivity. }
  destruct Hpre as (pre & Hpre).
  assert (Hsub : forall ev, In ev (new_events s_loop s') -> In ev (new_events s s')).
  { intros ev Hev. rewrite (new_events_app _ s' cases) in Hev
      by (rewrite Hs'; reflexivity).
    rewrite (new_events_app s s' (pre ++ cases))
      by (rewrite Hs'; cbn [st_trace]; rewrite Hpre, app_assoc; reflexivity).
    apply in_or_app. right. exact Hev. }
  change (st_heap s_loop) with (st_heap s) in Hsync, Hdone.
  destruct (js_eq E (st_heap s) len 0) eqn:H0'.
  - eexists. split; [apply Hsub, Hsync; reflexivity|]. reflexivity.
  - destruct Harity as [[=]|H1']. eexists.
    split; [apply Hsub, Hdone; trivial|]. reflexivity.
Qed.

Lemma tagged_members_are_registered_witness :
  exists c,
    In (Case (testFunc (VBool true) (VBool true)) (VStr "skipped") c)
       (new_events (start Probe_store) Probe_translated)
    /\ closure_method c = Some (VObj skipped).
Proof.
  apply (tagged_members_are_registered
           quiet (VBool false) (VObj Probe) (start Probe_store) Probe_translated
           (VObj Probe_prototype) "skipped" (VObj skipped) (VStr "skipped")
           (VBool true) (VBool true) (VNum 0)).
  - vm_compute. reflexivity.
  - vm_compute. reflexivity.
  - vm_compute. reflexivity.
  - vm_compute. tauto.
  - constructor; vm_compute; reflexivity.
  - left. reflexivity.
Defined.

(** A translation needs a target: on [undefined] or [null], the direct form
    raises a TypeError and registers nothing; the decorator form registers
    the suite under the explicit name, and then raises it. *)
Theorem translation_of_a_missing_target E decoratorName target s :
  target = VUndefined \/ target = VNull ->
  suite E target s = (Throw TypeError, s)
  /\ exists s', suite_result E decoratorName target s = (Throw TypeError, s')
                /\ st_heap s' = st_heap s
                /\ new_events s s'
                   = if truthy decoratorName then [Describe decoratorName] else [].
Proof.
  intros [-> | ->]; (split; [reflexivity|]);
    unfold suite_result, describeFunction; rewrite run_bind;
    destruct (truthy decoratorName); simpl;
    try (exists s; repeat split;
         apply new_events_app; rewrite app_nil_r; reflexivity);
    eexists; (split; [reflexivity|]); (split; [reflexivity|]);
    apply new_events_app; reflexivity.
Qed.

Lemma translation_of_a_missing_target_witness :
  suite quiet VUndefined (start Probe_store) = (Throw TypeError, start Probe_store).
Proof.
  exact (proj1 (translation_of_a_missing_target
                  quiet (VStr "Probe") VUndefined (start Probe_store)
                  (or_introl eq_refl))).
Defined.

(** ** The per-case closures, whatever the hooks *)

(** Whichever of its three forms the per-case setup has, it goes one of
    three ways.  If the target is not callable it raises a TypeError and
    nothing happens.  If the constructor throws, the setup throws the same,
    stores nothing and calls nothing.  If the constructor returns, the setup
    stores the object it returned, whatever was stored before; the form
    without hook then returns, and the two forms with a hook call the
    instance-level before hook exactly once, on that object. *)
Theorem setup_stores_the_new_instance E target prototype c s0 s0' done s out s' :
  beforeEachFunction E target prototype s0 = (Normal c, s0') ->
  runner_call E c done s = (out, s') ->
  match callable (st_heap s) target with
  | None => out = Throw TypeError /\ s' = s
  | Some l =>
      match construct E (st_heap s) l with
      | (Throw e, h1) =>
          out = Throw e
          /\ s' = {| st_heap := h1; st_instance := st_instance s;
                     st_trace := st_trace s ++ [New target] |}
      | (Normal i, h1) =>
          let stored := {| st_heap := h1; st_instance := VObj i;
                           st_trace := st_trace s
                                       ++ [New target; SetInstance (VObj i)] |} in
          st_instance s' = VObj i
          /\ match c with
             | BeforeEachDefault _ => out = Normal VUndefined /\ s' = stored
             | _ => calls_member E BeforeEachHook prototype "before" (VObj i)
                                 (convention (closure_length c) done) stored out s'
             end
      end
  end.
Proof.
  intros Hc Hrun. apply beforeEachFunction_inv in Hc as [_ [[_ [=]]|(c' & [= <-] & Hc)]].
  unfold runner_call in Hrun.
  destruct Hc as [-> | [-> | ->]]; simpl in Hrun; rewrite before_each_exact in Hrun;
    (destruct (callable (st_heap s) target) as [l|];
       [|injection Hrun as <- <-; auto]);
    (destruct (construct E (st_heap s) l) as [[i|e] h1];
       [|injection Hrun as <- <-; auto]);
    cbv zeta.
  - injection Hrun as <- <-. auto.
  - rewrite read_then_call in Hrun.
    pose proof (hook_call_exact E _ _ _ _ _ _ _ _ Hrun) as Hcall.
    destruct (hook_call_inv _ _ _ _ _ _ _ _ _ Hrun) as [Hi _].
    split; [exact Hi | exact Hcall].
  - rewrite read_then_call in Hrun.
    pose proof (hook_call_exact E _ _ _ _ _ _ _ _ Hrun) as Hcall.
    destruct (hook_call_inv _ _ _ _ _ _ _ _ _ Hrun) as [Hi _].
    split; [exact Hi | exact Hcall].
Qed.

Lemma setup_stores_the_new_instance_witness :
  snd (runner_call quiet (BeforeEachSync (VObj Probe) (VObj Probe_prototype))
                   (VStr "done")
                   {| st_heap := Probe_store; st_instance := VObj works;
                      st_trace := [] |})
  = {| st_heap := <[fresh_instance := plain ObjectPrototype []]> Probe_store;
       st_instance := VObj fresh_instance;
       st_trace := [New (VObj Probe); SetInstance (VObj fresh_instance);
                    Invoke BeforeEachHook before_hook (VObj fresh_instance) []] |}.
Proof.
  destruct (runner_call quiet (BeforeEachSync (VObj Probe) (VObj Probe_prototype))
              (VStr "done")
              {| st_heap := Probe_store; st_instance := VObj works; st_trace := [] |})
    as [out s'] eqn:Hrun.
  cbn [snd].
  pose proof (setup_stores_the_new_instance
                quiet (VObj Probe) (VObj Probe_prototype)
                (BeforeEachSync (VObj Probe) (VObj Probe_prototype))
                (start Probe_store) (start Probe_store) (VStr "done")
                {| st_heap := Probe_store; st_instance := VObj works; st_trace := [] |}
                out s'
                ltac:(vm_compute; reflexivity) Hrun) as H.
  vm_compute in H. destruct H as (_ & Hinv & Hi & Ht).
  injection Hinv as _ Hh.
  destruct s' as [h' i' t']. cbn [st_heap st_instance st_trace] in *.
  subst h' i' t'. vm_compute. reflexivity.
Defined.

(** Whichever of its three forms the per-case teardown has, and however the
    after hook ends, the stored reference is cleared, and cleared first; the
    only call is that of the instance-level after hook, on the instance that
    was stored. *)
Theorem teardown_always_clears E prototype c s0 s0' done s out s' :
  afterEachFunction E prototype s0 = (Normal c, s0') ->
  runner_call E c done s = (out, s') ->
  st_instance s' = VUndefined
  /\ exists rest,
       new_events s s' = SetInstance VUndefined :: rest
       /\ (rest = [] \/ exists l a, rest = [Invoke AfterEachHook l (st_instance s) a]).
Proof.
  intros Hc Hrun. apply afterEachFunction_cases in Hc. unfold runner_call in Hrun.
  destruct (teardown_inv E _ _ _ _ _ _ Hc Hrun) as (Hi & rest & Ht & Hrest).
  split; [exact Hi|]. exists rest. split; [|exact Hrest].
  apply new_events_app. exact Ht.
Qed.

Lemma teardown_always_clears_witness :
  st_instance (snd (runner_call quiet (AfterEachDone (VObj Probe_prototype)) (VStr "done")
                                {| st_heap := Probe_store;
                                   st_instance := VObj works;
                                   st_trace := [] |}))
  = VUndefined.
Proof.
  exact (proj1 (teardown_always_clears
                  quiet (VObj Probe_prototype) (AfterEachDone (VObj Probe_prototype))
                  (start Probe_store) (start Probe_store) (VStr "done")
                  {| st_heap := Probe_store; st_instance := VObj works; st_trace := [] |}
                  _ _
                  ltac:(vm_compute; reflexivity) ltac:(vm_compute; reflexivity))).
Defined.

(** ** The marking operations, further *)

(** A marking succeeds exactly when [target[propertyKey]] is an object,
    function or not; on a missing member, a primitive member or a missing
    target it raises a TypeError and leaves the state as it was. *)
Theorem mark_needs_an_object m target propertyKey s :
  match get (st_heap s) target (key_name propertyKey) with
  | Some (VObj f) =>
      exists s', mark m target propertyKey s = (Normal tt, s')
                 /\ get (st_heap s') (VObj f) (tag_key m)
                    = Some (tag_value m propertyKey)
  | _ => mark m target propertyKey s = (Throw TypeError, s)
  end.
Proof.
  rewrite mark_writes.
  destruct (get (st_heap s) target (key_name propertyKey)) as [member|] eqn:Hget.
  - destruct member;
      try (rewrite run_bind, (get_prop_some _ _ _ _ Hget); reflexivity).
    rewrite run_bind, (get_prop_some _ _ _ _ Hget). unfold set_prop.
    rewrite (tag_key_writable m). eexists. split; [reflexivity|].
    simpl st_heap. apply get_write_same. apply tag_key_writable.
  - rewrite run_bind. unfold get_prop. rewrite Hget. reflexivity.
Qed.

Lemma assoc_none_overwrite k x ps :
  assoc k ps = None -> map (overwrite k x) ps = ps.
Proof.
  induction ps as [|[k' p] ps IH]; simpl; [reflexivity|].
  unfold overwrite at 1. simpl.
  destruct (String.eqb k k'); [discriminate|]. intros H. rewrite (IH H). reflexivity.
Qed.

Lemma overwrite_twice k x ps :
  map (overwrite k x) (map (overwrite k x) ps) = map (overwrite k x) ps.
Proof.
  induction ps as [|[k' p] ps IH]; simpl; [reflexivity|]. rewrite IH. f_equal.
  unfold overwrite. simpl. destruct (String.eqb k k') eqn:Hk; simpl; rewrite Hk; reflexivity.
Qed.

Lemma set_own_twice o k x : set_own (set_own o k x) k x = set_own o k x.
Proof.
  unfold set_own at 1. pose proof (assoc_set_own_eq o k x) as (p & Hp & _).
  rewrite Hp. unfold set_own. simpl. f_equal.
  destruct (assoc k (o_props o)) eqn:Hk.
  - apply overwrite_twice.
  - rewrite map_app, (assoc_none_overwrite _ _ _ Hk). simpl.
    unfold overwrite. simpl. rewrite String.eqb_refl. reflexivity.
Qed.

(** Marking a member twice in the same way is marking it once. *)
Theorem marking_twice_is_marking_once m target propertyKey s f o :
  get (st_heap s) target (key_name propertyKey) = Some (VObj f) ->
  st_heap s !! f = Some o ->
  key_name propertyKey <> tag_key m ->
  (mark m target propertyKey;; mark m target propertyKey) s
  = mark m target propertyKey s.
Proof.
  intros Hget Hf Hkey.
  rewrite run_bind, (mark_run _ _ _ _ _ _ Hget Hf).
  erewrite mark_run.
  - simpl. rewrite set_own_twice, insert_insert_eq. reflexivity.
  - simpl st_heap. rewrite (get_write_other _ _ _ _ _ Hf); assumption.
  - simpl st_heap. apply lookup_insert_eq.
Qed.

Lemma marking_twice_is_marking_once_witness :
  (mark MarkSkip (VObj Probe_prototype) (Some "helper");;
   mark MarkSkip (VObj Probe_prototype) (Some "helper")) (start Probe_class)
  = mark MarkSkip (VObj Probe_prototype) (Some "helper") (start Probe_class).
Proof.
  apply (marking_twice_is_marking_once
           MarkSkip (VObj Probe_prototype) (Some "helper") (start Probe_class)
           helper (function 0 "" [])).
  - vm_compute. reflexivity.
  - vm_compute. reflexivity.
  - discriminate.
Defined.

(** Markings of different kinds on one member do not disturb each other:
    after both, each tag reads back. *)
Theorem marks_of_different_kinds_coexist m1 m2 target propertyKey s f o :
  get (st_heap s) target (key_name propertyKey) = Some (VObj f) ->
  st_heap s !! f = Some o ->
  tag_key m1 <> tag_key m2 ->
  key_name propertyKey <> tag_key m1 ->
  exists s',
    (mark m1 target propertyKey;; mark m2 target propertyKey) s = (Normal tt, s')
    /\ get (st_heap s') (VObj f) (tag_key m1) = Some (tag_value m1 propertyKey)
    /\ get (st_heap s') (VObj f) (tag_key m2) = Some (tag_value m2 propertyKey)
    /\ st_trace s' = st_trace s /\ st_instance s' = st_instance s.
Proof.
  intros Hget Hf Hkinds Hkey.
  rewrite run_bind, (mark_run _ _ _ _ _ _ Hget Hf).
  erewrite mark_run.
  - eexists. split; [reflexivity|]. simpl.
    split; [|split; [|split; reflexivity]].
    + rewrite (get_write_other _ _ _ _ _ (lookup_insert_eq _ _ _)) by exact Hkinds.
      apply get_write_same. apply tag_key_writable.
    + apply get_write_same. apply tag_key_writable.
  - simpl st_heap. rewrite (get_write_other _ _ _ _ _ Hf); assumption.
  - simpl st_heap. apply lookup_insert_eq.
Qed.

Lemma marks_of_different_kinds_coexist_witness :
  exists s',
    (mark (MarkTest (VStr "works")) (VObj Probe_prototype) (Some "works");;
     mark (MarkSlow (VNum 100)) (VObj Probe_prototype) (Some "works"))
      (start Probe_class) = (Normal tt, s')
    /\ get (st_heap s') (VObj works) testNameSymbol = Some (VStr "works")
    /\ get (st_heap s') (VObj works) slowSymbol = Some (VNum 100).
Proof.
  destruct (marks_of_different_kinds_coexist
              (MarkTest (VStr "works")) (MarkSlow (VNum 100))
              (VObj Probe_prototype) (Some "works") (start Probe_class)
              works (function 0 "" [])
              ltac:(vm_compute; reflexivity) ltac:(vm_compute; reflexivity)
              ltac:(discriminate) ltac:(discriminate))
    as (s' & Hrun & H1 & H2 & _).
  exists s'. auto.
Defined.

(** The display name a marking records: the member's own key when [test] is
    applied directly, the explicit name when the decorator returned by
    [test(name)] is applied. *)
Theorem test_records_the_name target key s f o :
  get (st_heap s) target key = Some (VObj f) ->
  st_heap s !! f = Some o ->
  (is_string target = false ->
   exists s', test target (Some key) s = (Normal Applied, s')
              /\ get (st_heap s') (VObj f) testNameSymbol = Some (VStr key))
  /\ (forall n, n <> "" ->
        test (VStr n) None s = (Normal (Decorator (VStr n)), s)
        /\ exists s', test_result (VStr n) target (Some key) s = (Normal tt, s')
                      /\ get (st_heap s') (VObj f) testNameSymbol = Some (VStr n)).
Proof.
  intros Hget Hf. split.
  - intros Htarget. rewrite test_direct by exact Htarget. rewrite run_bind.
    pose proof (mark_run (MarkTest (VBool false)) target (Some key) s f o Hget Hf) as Hm.
    simpl mark in Hm. rewrite Hm. eexists. split; [reflexivity|]. simpl st_heap.
    exact (get_write_same _ _ _ _ _ (tag_key_writable (MarkTest (VBool false)) o)).
  - intros n Hn. split; [apply test_named; exact Hn|].
    pose proof (mark_run (MarkTest (VStr n)) target (Some key) s f o Hget Hf) as Hm.
    simpl mark in Hm. rewrite Hm. eexists. split; [reflexivity|]. simpl st_heap.
    rewrite (get_write_same _ _ _ _ _ (tag_key_writable (MarkTest (VStr n)) o)).
    simpl. unfold js_or. simpl.
    destruct (String.eqb_spec n ""); [contradiction | reflexivity].
Qed.

Lemma test_records_the_name_witness :
  exists s', test (VObj Probe_prototype) (Some "solo") (start Probe_class)
             = (Normal Applied, s')
             /\ get (st_heap s') (VObj solo) testNameSymbol = Some (VStr "solo").
Proof.
  destruct (test_records_the_name
              (VObj Probe_prototype) "solo" (start Probe_class) solo (function 1 "" [])
              ltac:(vm_compute; reflexivity) ltac:(vm_compute; reflexivity))
    as [Hdirect _].
  exact (Hdirect eq_refl).
Defined.

(** ** From the marker to the handle *)

(** A number given to [slow] or [timeout] is the number the setter of that
    name receives.  After the marking, whenever the case of the marked
    behavior runs, the closure deals with the timeout tag, then the slow tag,
    then calls the body; the tag that was marked is the number [n], so it is
    forwarded by one call of the matching setter, read from and called on the
    [this] the closure captured, with [n] alone; the body is called exactly
    when both steps end normally. *)
Theorem marked_times_reach_the_handle
        E m n target propertyKey s s1 f o this body args out s2 :
  m = MarkSlow (VNum n) \/ m = MarkTimeout (VNum n) ->
  get (st_heap s) target (key_name propertyKey) = Some (VObj f) ->
  st_heap s !! f = Some o ->
  mark m target propertyKey s = (Normal tt, s1) ->
  body = CaseSync this (VObj f) \/ body = CaseDone this (VObj f) ->
  call_closure E body args s1 = (out, s2) ->
  exists tv sv o1 sa,
    get (st_heap s1) (VObj f) timeoutSymbol = Some tv
    /\ get (st_heap s1) (VObj f) slowSymbol = Some sv
    /\ match m with MarkTimeout _ => tv = VNum n | _ => sv = VNum n end
    /\ forwards E this "timeout" tv s1 o1 sa
    /\ match o1 with
       | Throw e => out = Throw e /\ s2 = sa
       | Normal _ =>
           exists o2 sb,
             forwards E this "slow" sv sa o2 sb
             /\ match o2 with
                | Throw e => out = Throw e /\ s2 = sb
                | Normal _ =>
                    calls_once E CaseBody (VObj f) (st_instance s1)
                               (closure_args body args) sb out s2
                end
       end.
Proof.
  intros Hm Hget Hf Hmark Hbody Hrun.
  rewrite (mark_run _ _ _ _ _ _ Hget Hf) in Hmark. injection Hmark as <-.
  match type of Hrun with call_closure _ _ _ ?st = _ => set (s1 := st) in * end.
  assert (Htag : get (st_heap s1) (VObj f) (tag_key m) = Some (VNum n)).
  { subst s1. simpl st_heap.
    rewrite (get_write_same _ _ _ _ _ (tag_key_writable m o)).
    destruct Hm as [-> | ->]; reflexivity. }
  destruct (get_object (st_heap s1) f timeoutSymbol) as (tv & Htv).
  destruct (get_object (st_heap s1) f slowSymbol) as (sv & Hsv).
  destruct (case_closure_exact E _ _ _ _ _ _ _ _ _ Hbody Htv Hsv Hrun)
    as (o1 & sa & F1 & Hrest).
  exists tv, sv, o1, sa. split; [exact Htv|]. split; [exact Hsv|].
  split; [|split; [exact F1 | exact Hrest]].
  destruct Hm as [-> | ->]; simpl tag_key in Htag; congruence.
Qed.

(** [@slow(5)] on [helper]: when its case runs, [slow_setter], and no other
    setter, is called with 5, on the receiver of the describe callback. *)
Lemma marked_times_reach_the_handle_witness :
  st_trace
    (snd (call_closure quiet (CaseSync (VObj handle) (VObj helper)) []
            (snd (mark (MarkSlow (VNum 5)) (VObj Probe_prototype) (Some "helper")
                       (start Probe_class)))))
  = [Invoke Configure slow_setter (VObj handle) [VNum 5];
     Invoke CaseBody helper VUndefined []].
Proof.
  destruct (mark (MarkSlow (VNum 5)) (VObj Probe_prototype) (Some "helper")
                 (start Probe_class)) as [om s1] eqn:Hmark.
  cbn [snd].
  destruct (call_closure quiet (CaseSync (VObj handle) (VObj helper)) [] s1)
    as [out s2] eqn:Hrun.
  cbn [snd].
  assert (om = Normal tt) as ->.
  { vm_compute in Hmark. injection Hmark as <- _. reflexivity. }
  destruct (marked_times_reach_the_handle
              quiet (MarkSlow (VNum 5)) 5 (VObj Probe_prototype) (Some "helper")
              (start Probe_class) s1 helper (function 0 "" [])
              (VObj handle) (CaseSync (VObj handle) (VObj helper)) [] out s2
              (or_introl eq_refl)
              ltac:(vm_compute; reflexivity) ltac:(vm_compute; reflexivity)
              Hmark (or_introl eq_refl) Hrun)
    as (tv & sv & o1 & sa & Htv & _ & Hsv & F1 & H).
  cbv beta iota in Hsv. subst sv.
  vm_compute in Hmark. injection Hmark as <-.
  vm_compute in Htv. injection Htv as <-.
  vm_compute in F1. destruct F1 as [-> ->].
  cbv beta iota in H. destruct H as (o2 & sb & F2 & H).
  vm_compute in F2. destruct F2 as (o & (Hinv & Hi & Ht) & ->).
  injection Hinv as <- Hh. cbv beta iota in H.
  destruct sb as [hb ib tb]. cbn [st_heap st_instance st_trace] in *.
  subst hb ib tb.
  vm_compute in H. destruct H as (_ & _ & Ht). exact Ht.
Defined.

Lemma translation_shape_witness :
  exists name prototype before_all after_all b a cases,
    new_events (start Probe_store) Probe_translated
    = Describe name :: before_all ++ after_all
      ++ BeforeEach b :: AfterEach a :: cases
    /\ is_setup (VObj Probe) prototype b /\ is_teardown prototype a
    /\ (length cases <= length (for_in_keys Probe_store prototype))%nat.
Proof.
  destruct (translation_shape quiet (VBool false) (VObj Probe)
                              (start Probe_store) Probe_translated
                              ltac:(vm_compute; reflexivity))
    as (name & prototype & before_all & after_all & b & a & cases
        & Hnew & _ & _ & _ & Hb & Ha & _ & Hlen & _).
  exists name, prototype, before_all, after_all, b, a, cases. auto.
Defined.

Lemma suite_name_received_witness :
  exists rest,
    new_events (start Probe_store) (snd (suite quiet (VObj Probe) (start Probe_store)))
    = Describe (VStr "Probe") :: rest.
Proof.
  exact (proj2 (suite_name_received quiet (start Probe_store))
               Probe (function 0 "Probe"
                        [("prototype", hidden (VObj Probe_prototype));
                         ("before", visible (VObj static_before_hook));
                         ("after", visible (VObj static_after_hook))])
               {| f_length := 0; f_name := "Probe" |}
               ltac:(vm_compute; reflexivity) eq_refl).
Defined.
